(** * graphAttack: the computation graph container (coreGraph.py)

    A shallow embedding of [basicGraph] and [Graph] and the properties of
    node registration, the parameter codec and the mode controller.

    Python objects are shared and mutated in place, so nodes live in a
    store indexed by object identity and the graph holds references into
    it.  Exceptions leave the mutations made before the raise in place, so
    every graph method returns an outcome together with the state it
    leaves behind. *)

From stdpp Require Import base decidable option list functions strings.

Set Default Proof Using "Type".

(** ** Object identities and node classes *)

(** A reference is the identity of a Python object. *)
Definition ref := nat.

(** The classes [isinstance] tells apart in coreGraph.py: [Variable]
  (coreDataContainers), [CostOperation] (coreOperation) and every other
    node. *)
Inductive NodeKind := KVariable | KCostOperation | KGenericOperation.

Global Instance NodeKind_eq_dec : EqDecision NodeKind.
Proof. solve_decision. Defined.

Definition isVariable (k : NodeKind) : bool :=
match k with KVariable => true | _ => false end.

Definition isCostOperation (k : NodeKind) : bool :=
match k with KCostOperation => true | _ => false end.

(** ** numpy arrays

    An array is its shape and its elements in row-major order.  The scalar
    type is left abstract: the graph only moves scalars around. *)

Section Arrays.
Context {A : Type}.

Record ndarray := mkArray { arr_shape : list nat; arr_data : list A }.

Definition elementCount (shape : list nat) : nat := foldr Nat.mul 1 shape.

(** The array stores as many elements as its shape announces. *)
Definition wf_array (a : ndarray) : Prop :=
  length (arr_data a) = elementCount (arr_shape a).

(** [pyNone] is the scalar numpy stores for Python's [None]:
    [np.asarray(None)] is a 0-d object array holding it. *)
Context (pyNone : A).

(** [np.size(x)] *)
Definition np_size (x : option ndarray) : nat :=
  match x with
  | Some a => elementCount (arr_shape a)
  | None => 1
  end.

(** [np.ravel(x)] *)
Definition np_ravel (x : option ndarray) : list A :=
  match x with
  | Some a => arr_data a
  | None => [pyNone]
  end.

(** [params[lo : lo + n]] on a flat array: slices clamp to the array. *)
Definition py_slice (params : list A) (lo n : nat) : list A :=
  take n (drop lo params).

(** [np.reshape(v, shape)] of a flat [v]: fails unless the sizes agree. *)
Definition np_reshape (v : list A) (shape : list nat) : option ndarray :=
  if decide (length v = elementCount shape)
  then Some (mkArray shape v) else None.

(** [np.hstack] returns a new array of the common dtype of the arrays it
    joins, and converts every element to it.  The vector the codec
    accumulates starts as [np.empty(0)], a float64 array: an int64
    element stacked onto it is rounded to the nearest float64, and
    stacking a complex array turns the float64 elements gathered so far
    into complex numbers.  [toCommonDtype params new x] is the element
    [x] of [params] or of [new] as the result of
    [np.hstack((params, new))] stores it; the dtype of an array is read
    off its elements, that of the empty vector being float64. *)
Context (toCommonDtype : list A → list A → A → A).

(** [np.hstack((params, new))] for flat arrays. *)
Definition np_hstack (params new : list A) : list A :=
  map (toCommonDtype params new) (params ++ new).

(** [acc] after the arrays [segs] have been stacked onto it in turn. *)
Fixpoint hstackAll (acc : list A) (segs : list (list A)) : list A :=
  match segs with
  | [] => acc
  | seg :: segs' => hstackAll (np_hstack acc seg) segs'
  end.

(** What stacking the arrays [segs] onto [acc] in turn makes of an
    element of [acc]: the conversions of the successive calls, one after
    the other. *)
Fixpoint hstackAllConversion (acc : list A) (segs : list (list A)) (x : A)
  : A :=
  match segs with
  | [] => x
  | seg :: segs' =>
      hstackAllConversion (np_hstack acc seg) segs' (toCommonDtype acc seg x)
  end.

(** The array [seg], the [i]-th of [segs], as the vector stacked from
    [segs] stores it. *)
Definition storedSegment (segs : list (list A)) (i : nat) (seg : list A)
  : list A :=
  map (hstackAllConversion (hstackAll [] (take i segs)) (drop i segs)) seg.

End Arrays.

Arguments ndarray A : clear implicits.

(** ** Nodes and the store *)

Section Nodes.
Context {A : Type}.

(** The attributes of a node that the graph reads or writes.
    [result] is the cached value of an operation and the assigned data
    of a Variable; [inputs] and [gradA] are not touched by coreGraph.py
    and are kept for the statements about them. *)
Record Node := mkNode {
  referenceNumber : option nat;
  name : string;
  inputs : list ref;
  outputs : list ref;
  result : option (ndarray A);
  gradA : option (ndarray A);
  shape : list nat;
  testing : bool
}.

Definition set_referenceNumber (v : option nat) (n : Node) : Node :=
  mkNode v (name n) (inputs n) (outputs n) (result n) (gradA n)
         (shape n) (testing n).

Definition set_testing (v : bool) (n : Node) : Node :=
  mkNode (referenceNumber n) (name n) (inputs n) (outputs n) (result n)
         (gradA n) (shape n) v.

Definition set_data (d : ndarray A) (n : Node) : Node :=
  mkNode (referenceNumber n) (name n) (inputs n) (outputs n) (Some d)
         (gradA n) (arr_shape d) (testing n).

End Nodes.

Arguments Node A : clear implicits.

(** The store: the nodes by identity. *)
Abbreviation Store A := (ref → Node A).

(** ** The graph object *)

Record basicGraph := mkGraph {
printWarnings : bool;
operations : list ref;
gradientOps : list ref;
finalOperation : option ref;
feederOperation : option ref;
endOperations : list ref;
nOperations : nat
}.

(** [basicGraph.__init__] *)
Definition basicGraph_init (printWarnings : bool) : basicGraph :=
mkGraph printWarnings [] [] None None [] 0.

Definition set_operations (v : list ref) (g : basicGraph) : basicGraph :=
mkGraph (printWarnings g) v (gradientOps g) (finalOperation g)
        (feederOperation g) (endOperations g) (nOperations g).

Definition set_gradientOps (v : list ref) (g : basicGraph) : basicGraph :=
mkGraph (printWarnings g) (operations g) v (finalOperation g)
        (feederOperation g) (endOperations g) (nOperations g).

Definition set_finalOperation (v : option ref) (g : basicGraph) : basicGraph :=
mkGraph (printWarnings g) (operations g) (gradientOps g) v
        (feederOperation g) (endOperations g) (nOperations g).

Definition set_feederOperation (v : option ref) (g : basicGraph) : basicGraph :=
mkGraph (printWarnings g) (operations g) (gradientOps g) (finalOperation g)
          v (endOperations g) (nOperations g).

Definition set_endOperations (v : list ref) (g : basicGraph) : basicGraph :=
mkGraph (printWarnings g) (operations g) (gradientOps g) (finalOperation g)
        (feederOperation g) v (nOperations g).

Definition set_nOperations (v : nat) (g : basicGraph) : basicGraph :=
mkGraph (printWarnings g) (operations g) (gradientOps g) (finalOperation g)
        (feederOperation g) (endOperations g) v.

(** ** Exceptions and the monad of graph methods *)

Section Effects.
(** [E]: what the node methods may raise. *)
Context {A E : Type}.

(** The exceptions coreGraph.py can end with.  The first three are the
    [ValueError]s of [addOperation] and of the codec loops, told apart by
    their message; the next two are [AttributeError]s; then come what
    numpy, [list.remove] and [warnings.warn] raise, and what the node
    methods raise. *)
Inductive exn :=
| InvalidGradientTarget
    (* "Graph can only provide gradients with respect to variables! ..." *)
| InvalidFeeder
    (* "Only variables can be feeders" *)
| InternalInvariantViolation
    (* "... There was an error in setting up" *)
| FinalNodeRequiredForPredictions
    (* "Final operation muts be a cost operation to make predictions" *)
| NoneHasNoAttribute
    (* attribute access on [self.finalOperation] when it is None *)
| CannotReshape
    (* numpy: cannot reshape array of size n into shape s *)
| NotInList
    (* list.remove(x): x not in list *)
| UserWarningRaised
    (* the UserWarning of [warnings.warn], when the filter turns it into
       an exception *)
| NodeRaised (e : E).

Inductive outcome (X : Type) :=
| Returns (x : X)
| Raises (e : exn).
Global Arguments Returns {X} x.
Global Arguments Raises {X} e.

(** The state a method runs in: the nodes, the graph, and the calls of
    [warnings.warn] made so far (the nodes they were about). *)
Record State := mkState {
  nodes : Store A;
  graph : basicGraph;
  warned : list ref
}.

Definition M (X : Type) : Type := State → outcome X * State.

Definition ret {X} (x : X) : M X := λ st, (Returns x, st).

Definition raise {X} (e : exn) : M X := λ st, (Raises e, st).

Definition bind {X Y} (m : M X) (k : X → M Y) : M Y :=
  λ st, match m st with
        | (Returns x, st') => k x st'
        | (Raises e, st') => (Raises e, st')
        end.

Definition getGraph : M basicGraph := λ st, (Returns (graph st), st).

Definition getNodes : M (Store A) := λ st, (Returns (nodes st), st).

Definition modifyGraph (f : basicGraph → basicGraph) : M unit :=
  λ st, (Returns tt, mkState (nodes st) (f (graph st)) (warned st)).

Definition modifyNode (r : ref) (f : Node A → Node A) : M unit :=
  λ st, (Returns tt,
         mkState (<[r := f (nodes st r)]> (nodes st)) (graph st) (warned st)).

(** [warnings.warn(..., UserWarning)] about the node [r].  The call is
    recorded; what happens next is decided by the warnings filter of the
    process: under the action "error" the warning is raised as an
    exception, under every other action the call returns. *)
Definition warn (asError : bool) (r : ref) : M unit :=
  λ st, (if asError then Raises UserWarningRaised else Returns tt,
         mkState (nodes st) (graph st) (warned st ++ [r])).

(** A method of a node: it sees and mutates the nodes, not the graph. *)
Definition NodeMethod (X : Type) : Type := Store A → (E + X) * Store A.

Definition callNode {X} (m : NodeMethod X) : M X :=
  λ st, match m (nodes st) with
        | (inr x, s) => (Returns x, mkState s (graph st) (warned st))
        | (inl e, s) => (Raises (NodeRaised e), mkState s (graph st) (warned st))
        end.

Definition when (b : bool) (m : M unit) : M unit :=
  if b then m else ret tt.

End Effects.

Arguments exn E : clear implicits.
Arguments outcome E X : clear implicits.
Arguments State A : clear implicits.
Arguments M A E X : clear implicits.
Arguments NodeMethod A E X : clear implicits.

Global Instance M_ret {A E} : MRet (M A E) := λ X, @ret A E X.
Global Instance M_bind {A E} : MBind (M A E) := λ X Y k m, @bind A E X Y m k.

(** [for x in l: body x] *)
Fixpoint forEach {A E X} (l : list X) (body : X → M A E unit) : M A E unit :=
  match l with
  | [] => mret tt
  | x :: l' => body x;; forEach l' body
  end.

(** [for x in l: acc = body(acc, x)] *)
Fixpoint forFold {A E X S} (l : list X) (acc : S) (body : S → X → M A E S)
  : M A E S :=
  match l with
  | [] => mret acc
  | x :: l' => acc' ← body acc x; forFold l' acc' body
  end.


(** ** The node classes

    coreDataContainers.py and coreOperation.py are not part of this
    development.  What the graph needs of [Variable] is written out below;
    the methods whose body is the mathematics of an operation are taken as
    parameters: any state transformer on the nodes that returns or raises. *)

Section Model.
Context {A E : Type}.
Context (pyNone : A).

(** The class of each object; it never changes. *)
Context (classOf : ref → NodeKind).

(** [op.reset()], [op.getValue()] of an operation, [op.getGradient()] and
    [op.makePredictions()] of a cost operation. *)
Context (node_reset : ref → NodeMethod A E unit).
Context (op_getValue : ref → NodeMethod A E (option (ndarray A))).
Context (node_getGradient : ref → NodeMethod A E (option (ndarray A))).
Context (cost_makePredictions : ref → NodeMethod A E (option (ndarray A))).

(** The conversion [np.hstack] applies to the elements it joins. *)
Context (toCommonDtype : list A → list A → A → A).

(** Whether the warnings filter in force turns a UserWarning into an
    exception (the action "error"). *)
Context (warningsAreErrors : bool).

(** Modelled from the spec: [Node.assignReferenceNumber] is absent; the
    identifier is an integer assigned at insertion. *)
Definition assignReferenceNumber (op : ref) (number : nat) : M A E unit :=
  modifyNode op (set_referenceNumber (Some number)).

(** Modelled from the spec: [Variable.getValue] is absent; the value of a
    Variable is its externally assigned data, which attachParameters reads
    as [op.result]. *)
Definition Variable_getValue (op : ref) : NodeMethod A E (option (ndarray A)) :=
  λ s, (inr (result (s op)), s).

(** Modelled from the spec: [Variable.assignData] is absent; it replaces
    the externally assigned data, and the shape is derived from the data. *)
Definition Variable_assignData (op : ref) (data : ndarray A) : M A E unit :=
  modifyNode op (set_data data).

(** [op.getValue()], dispatched on the class of [op]. *)
Definition node_getValue (op : ref) : NodeMethod A E (option (ndarray A)) :=
  if isVariable (classOf op) then Variable_getValue op else op_getValue op.

(** [isinstance(x, CostOperation)] where [x] may be None. *)
Definition isinstanceCost (x : option ref) : bool :=
  match x with
  | Some r => isCostOperation (classOf r)
  | None => false
  end.

(** [l.remove(x)]: drops the first occurrence, raises when there is none. *)
Fixpoint list_remove_first (x : ref) (l : list ref) : option (list ref) :=
  match l with
  | [] => None
  | y :: l' =>
      if decide (x = y) then Some l'
      else (λ t, y :: t) <$> list_remove_first x l'
  end.

Definition removeEndOperation (op : ref) : M A E unit :=
  g ← getGraph;
  match list_remove_first op (endOperations g) with
  | Some l => modifyGraph (set_endOperations l)
  | None => raise NotInList
  end.

(** *** basicGraph.addOperation *)
Definition addOperation (operation : ref)
    (doGradient finalOperation feederOperation : bool) : M A E ref :=
  modifyGraph (λ g, set_operations (operations g ++ [operation]) g);;
  g ← getGraph;
  assignReferenceNumber operation (nOperations g);;
  modifyGraph (λ g, set_nOperations (nOperations g + 1) g);;
  modifyGraph (λ g, set_endOperations (endOperations g ++ [operation]) g);;
  g ← getGraph;
  forEach (endOperations g) (λ op,
    s ← getNodes;
    when (bool_decide (operation ∈ outputs (s op))) (removeEndOperation op));;
  when doGradient (
    if negb (isVariable (classOf operation))
    then raise InvalidGradientTarget
    else modifyGraph (λ g, set_gradientOps (gradientOps g ++ [operation]) g));;
  when finalOperation (
    g ← getGraph;
    when (negb (isCostOperation (classOf operation)) && printWarnings g)
         (warn warningsAreErrors operation);;
    modifyGraph (set_finalOperation (Some operation)));;
  when feederOperation (
    if negb (isVariable (classOf operation))
    then raise InvalidFeeder
    else modifyGraph (set_feederOperation (Some operation)));;
  mret operation.

(** *** Graph.unrollGradientParameters *)

(** The body of the loop: [params] extended by the target [op]. *)
Definition unrollGradientParameters_step (params : list A) (op : ref)
  : M A E (list A) :=
  if negb (isVariable (classOf op))
  then raise InternalInvariantViolation
  else v ← callNode (node_getValue op);
       mret (np_hstack toCommonDtype params (np_ravel pyNone v)).

Definition unrollGradientParameters : M A E (list A) :=
  g ← getGraph;
  forFold (gradientOps g) [] unrollGradientParameters_step.

(** *** Graph.attachParameters *)

(** The body of the loop, for the target [op] at offset [pointer]; it
    returns the next offset. *)
Definition attachParameters_step (params : list A) (pointer : nat) (op : ref)
  : M A E nat :=
  if negb (isVariable (classOf op))
  then raise InternalInvariantViolation
  else s ← getNodes;
       let nElems := np_size (result (s op)) in
       let shaperino := shape (s op) in
       match np_reshape (py_slice params pointer nElems) shaperino with
       | Some data => Variable_assignData op data;; mret (pointer + nElems)
       | None => raise CannotReshape
       end.

Definition attachParameters (params : list A) : M A E unit :=
  g ← getGraph;
  forFold (gradientOps g) 0 (attachParameters_step params);;
  mret tt.

(** *** Graph.feedForward *)
Definition feedForward : M A E (option (ndarray A)) :=
  g ← getGraph;
  match finalOperation g with
  | Some final => callNode (node_getValue final)
  | None => raise NoneHasNoAttribute
  end.

(** *** Graph.resetAll *)
Definition resetAll : M A E unit :=
  g ← getGraph;
  forEach (operations g) (λ op, callNode (node_reset op)).

(** *** Graph.getValue *)
Definition getValue : M A E (option (ndarray A)) :=
  resetAll;; feedForward.

(** *** Graph.feedBackward *)
Definition feedBackward
  : M A E (list (option nat * string * option (ndarray A))) :=
  g ← getGraph;
  forFold (gradientOps g) [] (λ gradients op,
    s ← getNodes;
    grad ← callNode (node_getGradient op);
    mret (gradients ++ [(referenceNumber (s op), name (s op), grad)])).

(** *** Graph.getGradients *)
Definition getGradients
  : M A E (list (option nat * string * option (ndarray A))) :=
  resetAll;; feedBackward.

(** *** Graph.makePredictions *)
Definition makePredictions : M A E (option (ndarray A)) :=
  g ← getGraph;
  if negb (isinstanceCost (finalOperation g))
  then raise FinalNodeRequiredForPredictions
  else
    forEach (operations g) (λ op, modifyNode op (set_testing true));;
    resetAll;;
    pred ← match finalOperation g with
           | Some final => callNode (cost_makePredictions final)
           | None => raise NoneHasNoAttribute
           end;
    forEach (operations g) (λ op, modifyNode op (set_testing false));;
    mret pred.

(** *** Graph.unrollGradients *)

(** The body of the loop: [grads] extended by the target [op]. *)
Definition unrollGradients_step (grads : list A) (op : ref)
  : M A E (list A) :=
  if negb (isVariable (classOf op))
  then raise InternalInvariantViolation
  else v ← callNode (node_getGradient op);
       mret (np_hstack toCommonDtype grads (np_ravel pyNone v)).

Definition unrollGradients : M A E (list A) :=
  g ← getGraph;
  forFold (gradientOps g) [] unrollGradients_step.

(** *** basicGraph.__iter__: the nodes the iterator goes over. *)
Definition Graph_iter (st : State A) : list ref := operations (graph st).

(** ** Programs over the public surface *)

(** A call of a public method of the graph.  ([printGraph], [__repr__] and
    [__iter__] only read the node sequence.) *)
Inductive Call :=
| CallAddOperation (operation : ref)
    (doGradient finalOperation feederOperation : bool)
| CallUnrollGradientParameters
| CallAttachParameters (params : list A)
| CallFeedForward
| CallGetValue
| CallFeedBackward
| CallGetGradients
| CallMakePredictions
| CallUnrollGradients
| CallResetAll.

(** The state a call leaves behind, whether it returns or raises. *)
Definition exec (c : Call) (st : State A) : State A :=
  match c with
  | CallAddOperation op dg fin fd => (addOperation op dg fin fd st).2
  | CallUnrollGradientParameters => (unrollGradientParameters st).2
  | CallAttachParameters params => (attachParameters params st).2
  | CallFeedForward => (feedForward st).2
  | CallGetValue => (getValue st).2
  | CallFeedBackward => (feedBackward st).2
  | CallGetGradients => (getGradients st).2
  | CallMakePredictions => (makePredictions st).2
  | CallUnrollGradients => (unrollGradients st).2
  | CallResetAll => (resetAll st).2
  end.

(** [Graph(printWarnings)] over the objects that exist. *)
Definition Graph_init (s : Store A) (printWarnings : bool) : State A :=
  mkState s (basicGraph_init printWarnings) [].

(** A program: construct the graph, then make the calls in turn. *)
Definition run (s : Store A) (printWarnings : bool) (calls : list Call)
  : State A :=
  foldl (λ st c, exec c st) (Graph_init s printWarnings) calls.

End Model.

(** ** Predicates of the statements *)

Section Predicates.
Context {A : Type}.
Context (classOf : ref → NodeKind).

(** I3: every gradient target is a Variable. *)
Definition gradientTargetsAreVariables (g : basicGraph) : Prop :=
  ∀ r, r ∈ gradientOps g → classOf r = KVariable.

(** The invariant of a Variable that holds data: [op.shape] is the shape
    of [op.result]. *)
Definition holdsValue (n : Node A) : Prop :=
  ∃ a, result n = Some a ∧ shape n = arr_shape a ∧ wf_array a.

(** The weaker fact the codec relies on: [np.size(op.result)] is the
    element count of [op.shape]. *)
Definition shapeMatchesResult (n : Node A) : Prop :=
  np_size (result n) = elementCount (shape n).

(** The length attachParameters consumes: the element counts of the
    gradient targets, summed in list order. *)
Definition targetElementCount (st : State A) : nat :=
  sum_list (map (λ r, np_size (result (nodes st r))) (gradientOps (graph st))).

(** The caches reset is to clear: the gradient of every node and the value
    of every operation (the data of a Variable is not a cache). *)
Definition cacheCleared (r : ref) (n : Node A) : Prop :=
  gradA n = None ∧ (classOf r ≠ KVariable → result n = None).

(** The back-references of the nodes: [n] is among the outputs of [m]
    exactly when [m] is among the inputs of [n]. *)
Definition backReferencesConsistent (s : Store A) : Prop :=
  ∀ m n, n ∈ outputs (s m) ↔ m ∈ inputs (s n).

(** I2 for a sequence of insertions: the inputs of each node were
    inserted before it. *)
Definition dependencyOrdered (s : Store A) (ops : list ref) : Prop :=
  ∀ k r, ops !! k = Some r → ∀ i, i ∈ inputs (s r) → i ∈ take k ops.

(** The offset of target [i] in a flat vector whose segments have the
    given lengths. *)
Definition segmentOffset (lengths : list nat) (i : nat) : nat :=
  sum_list (take i lengths).

(** The sinks after inserting [operation]: it is appended, and every sink
    that has it among its outputs is dropped. *)
Definition sinksAfter (s : Store A) (operation : ref) (ends : list ref)
  : list ref :=
  filter (λ op, operation ∉ outputs (s op)) (ends ++ [operation]).

(** The state after the unconditional part of [addOperation]. *)
Definition registerNode (operation : ref) (st : State A) : State A :=
  mkState
    (<[operation := set_referenceNumber (Some (nOperations (graph st)))
                                        (nodes st operation)]> (nodes st))
    (mkGraph (printWarnings (graph st))
             (operations (graph st) ++ [operation])
             (gradientOps (graph st))
             (finalOperation (graph st))
             (feederOperation (graph st))
             (sinksAfter (nodes st) operation (endOperations (graph st)))
             (nOperations (graph st) + 1))
    (warned st).

(** What reset is to do, when it returns: clear the caches of its node and
    leave cleared caches cleared. *)
Definition resetClearsCache {E} (node_reset : ref → NodeMethod A E unit)
  : Prop :=
  ∀ r s s', node_reset r s = (inr tt, s') →
    cacheCleared r (s' r) ∧ ∀ r', cacheCleared r' (s r') → cacheCleared r' (s' r').

(** The values of the gradient targets, in list order. *)
Definition targetValues (st : State A) : list (option (ndarray A)) :=
  map (λ r, result (nodes st r)) (gradientOps (graph st)).

(** The gradients of the nodes [ops], asked for in turn. *)
Fixpoint collectGradients {E}
    (node_getGradient : ref → NodeMethod A E (option (ndarray A)))
    (ops : list ref) : NodeMethod A E (list (option (ndarray A))) :=
  λ s, match ops with
       | [] => (inr [], s)
       | op :: ops' =>
           match node_getGradient op s with
           | (inr g, s1) =>
               match collectGradients node_getGradient ops' s1 with
               | (inr gs, s2) => (inr (g :: gs), s2)
               | (inl e, s2) => (inl e, s2)
               end
           | (inl e, s1) => (inl e, s1)
           end
       end.

End Predicates.

(** The arguments of one [addOperation] call. *)
Record Insertion := mkInsertion {
  ins_operation : ref;
  ins_doGradient : bool;
  ins_finalOperation : bool;
  ins_feederOperation : bool
}.

Definition insertionCall {A} (i : Insertion) : @Call A :=
  CallAddOperation (ins_operation i) (ins_doGradient i)
                   (ins_finalOperation i) (ins_feederOperation i).

(** The nodes a program inserts, in order. *)
Definition insertedBy {A} (c : @Call A) : list ref :=
  match c with
  | CallAddOperation op _ _ _ => [op]
  | _ => []
  end.

(** No call of the program marks a node as final. *)
Definition marksNoFinal {A} (c : @Call A) : bool :=
  match c with
  | CallAddOperation _ _ fin _ => negb fin
  | _ => true
  end.

(** [m] stays within [R] when the state it leaves, returning or raising,
    is always [R]-related to the state it started from. *)
Definition staysWithin {A E} (R : relation (State A)) {X} (m : M A E X)
  : Prop :=
  ∀ st, R st (m st).2.

(** Two states are related by [evolves P Q] when their nodes are related
    by [P] and their graphs by [Q]. *)
Definition evolves {A} (P : relation (Store A)) (Q : relation basicGraph)
  : relation (State A) :=
  λ st st', P (nodes st) (nodes st') ∧ Q (graph st) (graph st').

(** A node method stays within [P]. *)
Definition nodeMethodWithin {A E X} (P : relation (Store A))
    (m : NodeMethod A E X) : Prop :=
  ∀ s, P s (m s).2.

(** The nodes hold the same identifiers. *)
Definition sameIdentifiers {A} : relation (Store A) :=
  λ s s', ∀ r, referenceNumber (s' r) = referenceNumber (s r).

(** The nodes have the same mode flags. *)
Definition sameModeFlags {A} : relation (Store A) :=
  λ s s', ∀ r, testing (s' r) = testing (s r).

(** The nodes have the same inputs and outputs. *)
Definition sameLinks {A} : relation (Store A) :=
  λ s s', ∀ r, inputs (s' r) = inputs (s r) ∧ outputs (s' r) = outputs (s r).

(** No constraint on the nodes. *)
Definition anyNodes {A} : relation (Store A) := λ _ _, True.

(** The states have the same graph and the same warnings. *)
Definition sameGraphAndWarnings {A} : relation (State A) :=
  λ st st', graph st' = graph st ∧ warned st' = warned st.

(** ** A small node library for the examples

    Scalars are integers or None; a cost operation predicts the current
    value of its first input; an operation computes the value of its first
    input and caches it. *)

Inductive pyscalar := PyNone | PyNum (z : Z).

(** The integer a float64 holds after the conversion of the integer [z]:
    [z] rounded to 53 significant bits, ties to even (below the overflow
    threshold of float64). *)
Definition ex_float64_of_Z (z : Z) : Z :=
  let m := Z.abs z in
  let e := Z.max 0 (Z.log2 m - 52) in
  let q := (m / 2 ^ e)%Z in
  let r := (m mod 2 ^ e)%Z in
  let q' := if (2 * r <? 2 ^ e)%Z then q
            else if (2 ^ e <? 2 * r)%Z then (q + 1)%Z
                 else if Z.even q then q else (q + 1)%Z in
  (Z.sgn z * (q' * 2 ^ e))%Z.

(** The conversion of [np.hstack] on these scalars: when one of the two
    arrays holds None the result is an object array and every element is
    kept as it is; otherwise the result is a float64 array and every
    number becomes a float64. *)
Definition ex_toCommonDtype (params new : list pyscalar) (x : pyscalar)
  : pyscalar :=
  match x with
  | PyNone => PyNone
  | PyNum z =>
      if existsb (λ y, match y with PyNone => true | PyNum _ => false end)
                 (params ++ new)
      then PyNum z
      else PyNum (ex_float64_of_Z z)
  end.

Inductive NodeFailure := NotComputed.

Definition ex_classOf (r : ref) : NodeKind :=
  match r with
  | 0 | 3 => KVariable
  | 2 | 4 => KCostOperation
  | _ => KGenericOperation
  end.

Definition ex_x : ndarray pyscalar := mkArray [2] [PyNum 1; PyNum 2].

Definition ex_nodes : Store pyscalar := λ r,
  match r with
  | 0 => mkNode None "x" [] [1; 2] (Some ex_x) None [2] false
  | 1 => mkNode None "op" [0] [] None None [2] false
  | 2 => mkNode None "cost" [0] [] None None [2] false
  | 3 => mkNode None "y" [] [4] None None [] false
  | 4 => mkNode None "cost" [3] [] None None [] false
  | _ => mkNode None "op" [] [] None None [] false
  end.

Definition ex_clear (k : NodeKind) (n : Node pyscalar) : Node pyscalar :=
  mkNode (referenceNumber n) (name n) (inputs n) (outputs n)
         (if isVariable k then result n else None) None
         (shape n) (testing n).

Definition ex_reset (r : ref) : NodeMethod pyscalar NodeFailure unit :=
  λ s, (inr tt, <[r := ex_clear (ex_classOf r) (s r)]> s).

Definition ex_firstInput (r : ref) (s : Store pyscalar)
  : option (ndarray pyscalar) :=
  match inputs (s r) with
  | i :: _ => result (s i)
  | [] => None
  end.

Definition ex_cache (v : ndarray pyscalar) (n : Node pyscalar)
  : Node pyscalar :=
  mkNode (referenceNumber n) (name n) (inputs n) (outputs n) (Some v)
         (gradA n) (shape n) (testing n).

Definition ex_getValue (r : ref)
  : NodeMethod pyscalar NodeFailure (option (ndarray pyscalar)) :=
  λ s, match result (s r) with
       | Some v => (inr (Some v), s)
       | None =>
           match ex_firstInput r s with
           | Some v => (inr (Some v), <[r := ex_cache v (s r)]> s)
           | None => (inl NotComputed, s)
           end
       end.

Definition ex_getGradient (r : ref)
  : NodeMethod pyscalar NodeFailure (option (ndarray pyscalar)) :=
  λ s, match result (s r) with
       | Some v => (inr (Some v), s)
       | None => (inl NotComputed, s)
       end.

Definition ex_makePredictions (r : ref)
  : NodeMethod pyscalar NodeFailure (option (ndarray pyscalar)) :=
  λ s, match ex_firstInput r s with
       | Some v => (inr (Some v), s)
       | None => (inl NotComputed, s)
       end.



(** Programs on the example nodes, warnings being shown. *)
Definition ex_run_on (s : Store pyscalar) (calls : list (@Call pyscalar))
  : State pyscalar :=
  run PyNone ex_classOf ex_reset ex_getValue ex_getGradient
      ex_makePredictions ex_toCommonDtype false s true calls.

Definition ex_run (calls : list (@Call pyscalar)) : State pyscalar :=
  ex_run_on ex_nodes calls.

Definition ex_add (op : ref) (doGradient : bool) : @Call pyscalar :=
  CallAddOperation op doGradient false false.


(** The graph methods on the example nodes. *)
Abbreviation ex_addOperation :=
  (addOperation (A:=pyscalar) (E:=NodeFailure) ex_classOf false).
Abbreviation ex_attachParameters :=
  (attachParameters (A:=pyscalar) (E:=NodeFailure) ex_classOf).
Abbreviation ex_unrollGradientParameters :=
  (unrollGradientParameters (E:=NodeFailure) PyNone ex_classOf ex_getValue
                            ex_toCommonDtype).
Abbreviation ex_unrollGradients :=
  (unrollGradients (E:=NodeFailure) PyNone ex_classOf ex_getGradient
                   ex_toCommonDtype).
Abbreviation ex_graph_makePredictions :=
  (makePredictions ex_classOf ex_reset ex_makePredictions).
Abbreviation ex_graph_getValue :=
  (getValue ex_classOf ex_reset ex_getValue).

(** * Properties *)

Section Properties.
Context {A E : Type}.
Context (pyNone : A).
Context (classOf : ref → NodeKind).
Context (node_reset : ref → NodeMethod A E unit).
Context (op_getValue : ref → NodeMethod A E (option (ndarray A))).
Context (node_getGradient : ref → NodeMethod A E (option (ndarray A))).
Context (cost_makePredictions : ref → NodeMethod A E (option (ndarray A))).
Context (toCommonDtype : list A → list A → A → A).
Context (warningsAreErrors : bool).

Local Abbreviation addOperation :=
  (addOperation (A:=A) (E:=E) classOf warningsAreErrors).
Local Abbreviation attachParameters := (attachParameters (A:=A) (E:=E) classOf).
Local Abbreviation unrollGradientParameters :=
  (unrollGradientParameters (E:=E) pyNone classOf op_getValue toCommonDtype).
Local Abbreviation unrollGradients :=
  (unrollGradients (E:=E) pyNone classOf node_getGradient toCommonDtype).
Local Abbreviation feedForward := (feedForward classOf op_getValue).
Local Abbreviation resetAll := (resetAll node_reset).
Local Abbreviation getValue := (getValue classOf node_reset op_getValue).
Local Abbreviation feedBackward := (feedBackward node_getGradient).
Local Abbreviation getGradients := (getGradients node_reset node_getGradient).
Local Abbreviation makePredictions :=
  (makePredictions classOf node_reset cost_makePredictions).
Local Abbreviation exec :=
  (exec pyNone classOf node_reset op_getValue node_getGradient
        cost_makePredictions toCommonDtype warningsAreErrors).
Local Abbreviation run :=
  (run pyNone classOf node_reset op_getValue node_getGradient
       cost_makePredictions toCommonDtype warningsAreErrors).

(** ** Stepping through the monad *)

Lemma bind_run {X Y} (m : M A E X) (k : X → M A E Y) st :
  (m ≫= k) st = match m st with
                | (Returns x, st') => k x st'
                | (Raises e, st') => (Raises e, st')
                end.
Proof. reflexivity. Qed.

(** Unfold the monad at the head of the goal, one primitive at a time. *)
Ltac mrun :=
  repeat (progress (rewrite ?bind_run;
                    cbn [mret M_ret ret raise getGraph getNodes modifyGraph
                         modifyNode warn when nodes graph warned])).

Lemma state_eta (st : State A) :
  mkState (nodes st) (graph st) (warned st) = st.
Proof. by destruct st. Qed.

Lemma graph_eta (g : basicGraph) :
  mkGraph (printWarnings g) (operations g) (gradientOps g) (finalOperation g)
          (feederOperation g) (endOperations g) (nOperations g) = g.
Proof. by destruct g. Qed.

(** ** Methods that stay within a relation *)

Section Within.
Context (R : relation (State A)) {R_preorder : PreOrder R}.

Local Set Default Proof Using "Type R_preorder".

Lemma within_ret {X} (x : X) : staysWithin R (mret x : M A E X).
Proof. intros st. simpl. reflexivity. Qed.

Lemma within_raise {X} e : staysWithin R (raise e : M A E X).
Proof. intros st. simpl. reflexivity. Qed.

Lemma within_getGraph : staysWithin R (getGraph : M A E _).
Proof. intros st. simpl. reflexivity. Qed.

Lemma within_getNodes : staysWithin R (getNodes : M A E _).
Proof. intros st. simpl. reflexivity. Qed.

Lemma within_bind {X Y} (m : M A E X) (k : X → M A E Y) :
  staysWithin R m → (∀ x, staysWithin R (k x)) → staysWithin R (m ≫= k).
Proof.
  intros Hm Hk st. rewrite bind_run. specialize (Hm st).
  destruct (m st) as [[x|e] st']; simpl in *; [|done].
  etrans; [exact Hm | apply Hk].
Qed.

Lemma within_when b (m : M A E unit) :
  staysWithin R m → staysWithin R (when b m).
Proof. destruct b; [done | intros _; apply (within_ret tt)]. Qed.

Lemma within_forEach {X} (l : list X) (body : X → M A E unit) :
  (∀ x, staysWithin R (body x)) → staysWithin R (forEach l body).
Proof.
  intros Hb. induction l as [|x l IH]; simpl.
  - apply (within_ret tt).
  - apply within_bind; auto.
Qed.

Lemma within_forFold {X S} (l : list X) (acc : S) (body : S → X → M A E S) :
  (∀ a x, staysWithin R (body a x)) → staysWithin R (forFold l acc body).
Proof.
  intros Hb. revert acc. induction l as [|x l IH]; intros acc; simpl.
  - apply within_ret.
  - apply within_bind; auto.
Qed.

Lemma within_match_option {X Y} (o : option X) (f : X → M A E Y) (d : M A E Y) :
  (∀ x, staysWithin R (f x)) → staysWithin R d →
  staysWithin R (match o with Some x => f x | None => d end).
Proof. destruct o; auto. Qed.

Lemma within_if {X} (b : bool) (m1 m2 : M A E X) :
  staysWithin R m1 → staysWithin R m2 → staysWithin R (if b then m1 else m2).
Proof. destruct b; auto. Qed.
End Within.

(** ** Registration *)

Lemma list_remove_first_app (x : ref) (l1 l2 : list ref) :
  x ∉ l1 → list_remove_first x (l1 ++ x :: l2) = Some (l1 ++ l2).
Proof.
  induction l1 as [|y l1 IH]; intros Hx; simpl.
  - by rewrite decide_True.
  - apply not_elem_of_cons in Hx as [Hne Hx].
    rewrite decide_False by done. by rewrite IH.
Qed.

(** The loop over the copy of the sinks is a filter: it never fails to
    find the sink it removes. *)
Lemma sink_loop (operation : ref) (rest done : list ref) (st : State A) :
  endOperations (graph st)
    = filter (λ op, operation ∉ outputs (nodes st op)) done ++ rest →
  forEach (E:=E) rest (λ op,
      s ← getNodes;
      when (bool_decide (operation ∈ outputs (s op))) (removeEndOperation op))
    st
  = (Returns tt,
     mkState (nodes st)
       (set_endOperations
          (filter (λ op, operation ∉ outputs (nodes st op)) (done ++ rest))
          (graph st))
       (warned st)).
Proof.
  revert done st. induction rest as [|op rest IH]; intros done st Hends.
  - simpl. rewrite app_nil_r in *. rewrite <- Hends.
    unfold set_endOperations. by rewrite graph_eta, state_eta.
  - cbn [forEach]. mrun.
    destruct (decide (operation ∈ outputs (nodes st op))) as [Hin|Hnin].
    + rewrite bool_decide_eq_true_2 by done.
      unfold removeEndOperation. mrun.
      rewrite Hends, list_remove_first_app; last first.
      { rewrite list_elem_of_filter. by intros [Hout _]. }
      mrun.
      rewrite (IH (done ++ [op])); cbn [nodes graph warned].
      * unfold set_endOperations; cbn. by rewrite <- (assoc_L (++)).
      * cbn. rewrite filter_app, filter_cons_False by (by intros Hout).
        by rewrite filter_nil, app_nil_r.
    + rewrite bool_decide_eq_false_2 by done. mrun.
      rewrite (IH (done ++ [op])).
      * do 3 f_equal. by rewrite <- (assoc_L (++)).
      * rewrite Hends, filter_app, filter_cons_True by done.
        by rewrite filter_nil, <- (assoc_L (++)).
Qed.

(** The rest of [addOperation]: the three flags, in the order the method
    handles them. *)
Lemma addOperation_register operation doGradient asFinal asFeeder st :
  addOperation operation doGradient asFinal asFeeder st
  = (when doGradient (
       if negb (isVariable (classOf operation))
       then raise InvalidGradientTarget
       else modifyGraph
              (λ g, set_gradientOps (gradientOps g ++ [operation]) g));;
     when asFinal (
       g ← getGraph;
       when (negb (isCostOperation (classOf operation)) && printWarnings g)
            (warn warningsAreErrors operation);;
       modifyGraph (set_finalOperation (Some operation)));;
     when asFeeder (
       if negb (isVariable (classOf operation))
       then raise InvalidFeeder
       else modifyGraph (set_feederOperation (Some operation)));;
     mret operation) (registerNode operation st).
Proof.
  unfold addOperation, assignReferenceNumber.
  rewrite !bind_run. mrun.
  rewrite (sink_loop operation _ []); last done.
  cbn [nodes graph warned set_endOperations set_nOperations set_operations
       printWarnings operations gradientOps endOperations nOperations app].
  unfold registerNode, sinksAfter.
  replace (filter _ (endOperations (graph st) ++ [operation]))
    with (filter (λ op, operation ∉ outputs (nodes st op))
                 (endOperations (graph st) ++ [operation])); [done|].
  apply list_filter_iff. intros op.
  unfold insert, fn_insert. case_decide; subst; done.
Qed.

(** What every [addOperation] call leaves behind, whatever its flags and
    whether it returns or raises. *)
Lemma addOperation_leaves operation doGradient asFinal asFeeder st :
  let st' := (addOperation operation doGradient asFinal asFeeder st).2 in
  nodes st' = nodes (registerNode operation st)
  ∧ operations (graph st') = operations (graph st) ++ [operation]
  ∧ nOperations (graph st') = nOperations (graph st) + 1
  ∧ endOperations (graph st')
    = sinksAfter (nodes st) operation (endOperations (graph st))
  ∧ (gradientOps (graph st') = gradientOps (graph st)
     ∨ classOf operation = KVariable
       ∧ gradientOps (graph st') = gradientOps (graph st) ++ [operation])
  ∧ (asFinal = false
     → finalOperation (graph st') = finalOperation (graph st)).
Proof.
  rewrite addOperation_register.
  destruct doGradient, asFinal, asFeeder, warningsAreErrors,
    (classOf operation) eqn:Hk, (printWarnings (graph st)) eqn:Hw;
    mrun; rewrite ?Hw; mrun; cbn; rewrite ?Hw; cbn; mrun; cbn;
    repeat split; try done; first [by left | by right].
Qed.

(** C1 (as amended): marking a node that is not a Variable as a gradient
    target makes [addOperation] raise InvalidGradientTarget.  The
    gradient-target list, the final reference and the feeder are as
    before the call; the node has nevertheless been registered: it is
    appended to the node sequence, it received the next identifier, the
    counter went up by one and the sinks were updated. *)
Theorem addOperation_invalid_gradient_target operation asFinal asFeeder st :
  classOf operation ≠ KVariable →
  ∃ st',
    addOperation operation true asFinal asFeeder st
      = (Raises InvalidGradientTarget, st')
    ∧ gradientOps (graph st') = gradientOps (graph st)
    ∧ finalOperation (graph st') = finalOperation (graph st)
    ∧ feederOperation (graph st') = feederOperation (graph st)
    ∧ operations (graph st') = operations (graph st) ++ [operation]
    ∧ nOperations (graph st') = nOperations (graph st) + 1
    ∧ endOperations (graph st')
      = sinksAfter (nodes st) operation (endOperations (graph st))
    ∧ referenceNumber (nodes st' operation) = Some (nOperations (graph st)).
Proof.
  intros Hk. exists (registerNode operation st).
  rewrite addOperation_register.
  destruct (classOf operation) eqn:Hc; [done| |];
    mrun; (split; [done|]); unfold registerNode; cbn [nodes graph];
    rewrite fn_lookup_insert; done.
Qed.

(** ** What the methods other than [addOperation] leave alone *)

Global Instance evolves_preorder (P : relation (Store A))
    (Q : relation basicGraph) :
  PreOrder P → PreOrder Q → PreOrder (evolves P Q).
Proof.
  intros HP HQ. split.
  - intros st. split; reflexivity.
  - intros st1 st2 st3 [H1 H2] [H3 H4]. split; etrans; eauto.
Qed.

Global Instance sameIdentifiers_preorder : PreOrder (@sameIdentifiers A).
Proof.
  split; [by intros s r|]. intros s1 s2 s3 H1 H2 r. by rewrite H2, H1.
Qed.

Global Instance sameModeFlags_preorder : PreOrder (@sameModeFlags A).
Proof.
  split; [by intros s r|]. intros s1 s2 s3 H1 H2 r. by rewrite H2, H1.
Qed.

Global Instance sameLinks_preorder : PreOrder (@sameLinks A).
Proof.
  split; [by intros s r|]. intros s1 s2 s3 H1 H2 r.
  destruct (H1 r), (H2 r). split; congruence.
Qed.

Global Instance anyNodes_preorder : PreOrder (@anyNodes A).
Proof. by split. Qed.

Section GraphUntouched.
Context (P : relation (Store A)) {P_preorder : PreOrder P}.

Lemma within_callNode {X} (m : NodeMethod A E X) :
  nodeMethodWithin P m → staysWithin (evolves P eq) (callNode m).
Proof.
  intros Hm st. unfold callNode. specialize (Hm (nodes st)).
  by destruct (m (nodes st)) as [[e|x] s].
Qed.

Lemma within_modifyNode r (f : Node A → Node A) :
  (∀ s, P s (<[r := f (s r)]> s)) →
  staysWithin (E:=E) (evolves P eq) (modifyNode r f).
Proof. intros Hf st. split; [apply Hf | done]. Qed.

Lemma Variable_getValue_within r :
  nodeMethodWithin P (Variable_getValue (E:=E) r).
Proof using Type P_preorder. intros s. simpl. reflexivity. Qed.

Lemma node_getValue_within r :
  nodeMethodWithin P (op_getValue r) →
  nodeMethodWithin P (node_getValue classOf op_getValue r).
Proof using Type P_preorder.
  intros H. unfold node_getValue.
  destruct (isVariable (classOf r)); [apply Variable_getValue_within | done].
Qed.

(** The node methods stay within [P], and so do the two attributes the
    graph itself assigns outside [addOperation]. *)
Context (reset_in : ∀ r, nodeMethodWithin P (node_reset r)).
Context (getValue_in : ∀ r, nodeMethodWithin P (op_getValue r)).
Context (getGradient_in : ∀ r, nodeMethodWithin P (node_getGradient r)).
Context (makePredictions_in :
           ∀ r, nodeMethodWithin P (cost_makePredictions r)).
Context (set_testing_in :
           ∀ r b (s : Store A), P s (<[r := set_testing b (s r)]> s)).
Context (set_data_in :
           ∀ r d (s : Store A), P s (<[r := set_data d (s r)]> s)).

Ltac within_step :=
  lazymatch goal with
  | |- staysWithin _ (mret _) => apply within_ret
  | |- staysWithin _ (raise _) => apply within_raise
  | |- staysWithin _ getGraph => apply within_getGraph
  | |- staysWithin _ getNodes => apply within_getNodes
  | |- staysWithin _ (_ ≫= _) => apply within_bind
  | |- staysWithin _ (when _ _) => apply within_when
  | |- staysWithin _ (forEach _ _) => apply within_forEach
  | |- staysWithin _ (forFold _ _ _) => apply within_forFold
  | |- staysWithin _ (if _ then _ else _) => apply within_if
  | |- staysWithin _ (match _ with Some _ => _ | None => _ end) =>
      apply within_match_option
  | |- staysWithin _ (callNode _) => apply within_callNode
  | |- staysWithin _ (modifyNode _ _) => apply within_modifyNode
  | |- staysWithin _ resetAll => unfold resetAll
  | |- nodeMethodWithin _ (node_getValue _ _ _) => apply node_getValue_within
  | |- PreOrder _ => apply _
  | |- ∀ _, _ => intros
  | |- _ =>
      first [ apply reset_in | apply getValue_in | apply getGradient_in
            | apply makePredictions_in | apply set_testing_in
            | apply set_data_in ]
  end.

Ltac within := cbv zeta; repeat within_step.

Lemma unrollGradientParameters_within :
  staysWithin (evolves P eq) unrollGradientParameters.
Proof using Type P_preorder getValue_in.
  unfold unrollGradientParameters, unrollGradientParameters_step. within.
Qed.

Lemma attachParameters_within params :
  staysWithin (evolves P eq) (attachParameters params).
Proof using Type P_preorder set_data_in.
  unfold attachParameters, attachParameters_step, Variable_assignData.
  within.
Qed.

Lemma feedForward_within : staysWithin (evolves P eq) feedForward.
Proof using Type P_preorder getValue_in. unfold feedForward. within. Qed.

Lemma resetAll_within : staysWithin (evolves P eq) resetAll.
Proof using Type P_preorder reset_in. unfold resetAll. within. Qed.

Lemma getValue_stays_within : staysWithin (evolves P eq) getValue.
Proof using Type P_preorder reset_in getValue_in.
  unfold getValue. apply within_bind; [apply _ | |intros _].
  - apply resetAll_within.
  - apply feedForward_within.
Qed.

Lemma feedBackward_within : staysWithin (evolves P eq) feedBackward.
Proof using Type P_preorder getGradient_in. unfold feedBackward. within. Qed.

Lemma getGradients_within : staysWithin (evolves P eq) getGradients.
Proof using Type P_preorder reset_in getGradient_in.
  unfold getGradients. apply within_bind; [apply _ | |intros _].
  - apply resetAll_within.
  - apply feedBackward_within.
Qed.

Lemma makePredictions_within : staysWithin (evolves P eq) makePredictions.
Proof using Type P_preorder reset_in makePredictions_in set_testing_in.
  unfold makePredictions. within.
Qed.

Lemma unrollGradients_within : staysWithin (evolves P eq) unrollGradients.
Proof using Type P_preorder getGradient_in. unfold unrollGradients, unrollGradients_step. within. Qed.

(** Every call that is not an insertion leaves the graph as it was and
    the nodes within [P]. *)
Lemma exec_within (c : Call) st :
  insertedBy c = [] → evolves P eq st (exec c st).
Proof using Type P_preorder reset_in getValue_in getGradient_in makePredictions_in set_testing_in set_data_in.
  destruct c; intros Hc; try discriminate Hc; cbn [exec].
  - apply unrollGradientParameters_within.
  - apply attachParameters_within.
  - apply feedForward_within.
  - apply getValue_stays_within.
  - apply feedBackward_within.
  - apply getGradients_within.
  - apply makePredictions_within.
  - apply unrollGradients_within.
  - apply resetAll_within.
Qed.
End GraphUntouched.

(** ** Programs *)

Lemma run_snoc s pw calls c :
  run s pw (calls ++ [c]) = exec c (run s pw calls).
Proof. unfold run. by rewrite foldl_snoc. Qed.

(** A call that is not an insertion leaves the graph as it was. *)
Lemma exec_graph (c : Call) st :
  insertedBy c = [] → graph (exec c st) = graph st.
Proof.
  intros Hc. symmetry. by apply (exec_within anyNodes).
Qed.

(** I3 holds of every program. *)
Lemma run_gradientTargetsAreVariables s pw calls :
  gradientTargetsAreVariables classOf (graph (run s pw calls)).
Proof.
  induction calls as [|c calls IH] using rev_ind.
  - intros r Hr. cbn in Hr. by apply elem_of_nil in Hr.
  - rewrite run_snoc. set (st := run s pw calls) in *.
    destruct (insertedBy c) eqn:Hc.
    { by rewrite exec_graph. }
    destruct c as [operation dg fin fd| | | | | | | | |];
      try discriminate Hc. cbn [exec].
    destruct (addOperation_leaves operation dg fin fd st)
      as (_ & _ & _ & _ & Hg & _).
    clear Hc. intros t. destruct Hg as [-> | [Hk ->]]; [apply IH|].
    rewrite elem_of_app, list_elem_of_singleton.
    intros [Ht | ->]; [by apply IH | done].
Qed.

Lemma forFold_never_raises {X S} (e : exn E) (l : list X)
    (body : S → X → M A E S) acc st :
  (∀ x, x ∈ l → ∀ a st', (body a x st').1 ≠ Raises e) →
  (forFold l acc body st).1 ≠ Raises e.
Proof.
  revert acc st. induction l as [|x l IH]; intros acc st Hb; [done|].
  cbn [forFold]. rewrite bind_run.
  pose proof (Hb x ltac:(left) acc st) as Hx.
  destruct (body acc x st) as [[a|e'] st']; [|done].
  apply IH. intros y Hy. apply Hb. by right.
Qed.

(** C9: every state a program of public calls can reach satisfies I3,
    and there none of the three codec loops ends in the
    InternalInvariantViolation branch. *)
Theorem internal_invariant_violation_unreachable s pw calls :
  let st := run s pw calls in
  gradientTargetsAreVariables classOf (graph st)
  ∧ (unrollGradientParameters st).1 ≠ Raises InternalInvariantViolation
  ∧ (∀ params,
       (attachParameters params st).1 ≠ Raises InternalInvariantViolation)
  ∧ (unrollGradients st).1 ≠ Raises InternalInvariantViolation.
Proof.
  intros st. pose proof (run_gradientTargetsAreVariables s pw calls) as HI3.
  fold st in HI3. split; [done|]. split; [|split].
  - unfold unrollGradientParameters. rewrite bind_run. cbn [getGraph].
    apply forFold_never_raises. intros op Hop params st'.
    unfold unrollGradientParameters_step. rewrite (HI3 op Hop). cbn [isVariable negb]. rewrite bind_run.
    unfold callNode. by destruct (node_getValue _ _ _ _) as [[e|v] s'].
  - intros params. unfold attachParameters. mrun.
    match goal with
    | |- context [forFold ?l ?a ?b st] =>
        pose proof (forFold_never_raises InternalInvariantViolation l b a st)
          as Hloop;
        destruct (forFold l a b st) as [[p|e] st1]
    end; [done|].
    cbn [fst] in *. intros Heq. injection Heq as ->.
    apply Hloop; [|done]. intros op Hop pointer st'.
    unfold attachParameters_step. rewrite (HI3 op Hop). cbn [isVariable negb]. rewrite bind_run.
    cbn [getNodes].
    destruct (np_reshape _ _); [|done].
    by rewrite bind_run.
  - unfold unrollGradients. rewrite bind_run. cbn [getGraph].
    apply forFold_never_raises. intros op Hop grads st'.
    unfold unrollGradients_step. rewrite (HI3 op Hop). cbn [isVariable negb]. rewrite bind_run.
    unfold callNode. by destruct (node_getGradient _ _) as [[e|v] s'].
Qed.

Lemma run_no_final s pw calls :
  forallb marksNoFinal calls = true →
  finalOperation (graph (run s pw calls)) = None.
Proof.
  induction calls as [|c calls IH] using rev_ind; [done|].
  rewrite forallb_app, andb_true_iff. cbn [forallb].
  rewrite andb_true_r. intros [Hcalls Hc].
  rewrite run_snoc. set (st := run s pw calls) in *.
  destruct (insertedBy c) eqn:Hi.
  { rewrite exec_graph by done. by apply IH. }
  destruct c as [operation dg fin fd| | | | | | | | |];
    try discriminate Hi. cbn [exec].
  cbn in Hc. apply negb_true_iff in Hc.
  destruct (addOperation_leaves operation dg fin fd st)
    as (_ & _ & _ & _ & _ & Hf).
  rewrite Hf by done. by apply IH.
Qed.

(** C10: as long as no insertion marked a node as final, the final
    reference is None, and [feedForward], [getValue] and [makePredictions]
    all raise instead of returning a value. *)
Theorem no_final_operation_no_value s pw calls :
  forallb marksNoFinal calls = true →
  let st := run s pw calls in
  finalOperation (graph st) = None
  ∧ (feedForward st).1 = Raises NoneHasNoAttribute
  ∧ (∃ e, (getValue st).1 = Raises e)
  ∧ (makePredictions st).1 = Raises FinalNodeRequiredForPredictions.
Proof.
  intros Hcalls st. pose proof (run_no_final s pw calls Hcalls) as Hfin.
  fold st in Hfin. split; [done|]. split; [|split].
  - unfold feedForward. rewrite bind_run. cbn [getGraph]. by rewrite Hfin.
  - unfold getValue. rewrite bind_run.
    pose proof (resetAll_within anyNodes ltac:(by intros ? ?) st) as [_ Hg].
    destruct (resetAll st) as [[[]|e] st1]; [|by exists e].
    exists NoneHasNoAttribute. unfold feedForward. rewrite bind_run.
    cbn [getGraph snd] in *. by rewrite <- Hg, Hfin.
  - unfold makePredictions. rewrite bind_run. cbn [getGraph].
    by rewrite Hfin.
Qed.

(** ** Identifiers *)

Lemma set_testing_sameIdentifiers r b (s : Store A) :
  sameIdentifiers s (<[r := set_testing b (s r)]> s).
Proof.
  intros r'. unfold insert, fn_insert. by case_decide; subst.
Qed.

Lemma set_data_sameIdentifiers r d (s : Store A) :
  sameIdentifiers s (<[r := set_data d (s r)]> s).
Proof.
  intros r'. unfold insert, fn_insert. by case_decide; subst.
Qed.

Lemma flat_map_insertedBy_snoc (calls : list (@Call A)) c :
  flat_map insertedBy (calls ++ [c])
  = flat_map insertedBy calls ++ insertedBy c.
Proof. by rewrite flat_map_app; cbn; rewrite app_nil_r. Qed.

Lemma run_operations s pw calls :
  operations (graph (run s pw calls)) = flat_map insertedBy calls
  ∧ nOperations (graph (run s pw calls)) = length (flat_map insertedBy calls).
Proof.
  induction calls as [|c calls IH] using rev_ind; [done|].
  rewrite run_snoc, flat_map_insertedBy_snoc.
  set (st := run s pw calls) in *. destruct IH as [Hops Hn].
  destruct (insertedBy c) eqn:Hc.
  - rewrite exec_graph, app_nil_r by done. done.
  - destruct c as [operation dg fin fd| | | | | | | | |];
      try discriminate Hc.
    cbn in Hc. injection Hc as <- <-. cbn [exec].
    destruct (addOperation_leaves operation dg fin fd st)
      as (_ & Hops' & Hn' & _).
    by rewrite Hops', Hn', Hops, Hn, length_app.
Qed.

(** C6 (as amended): in every program the node sequence is the sequence
    of inserted nodes and the counter is its length; an insertion assigns
    to its node the number of insertions made before it; a call that is
    not an insertion changes no identifier, as long as the node methods
    change none; and when no node is inserted twice, the node at position
    [k] of the sequence holds identifier [k]. *)
Theorem identifiers_follow_insertion_order s pw calls :
  (∀ r, nodeMethodWithin sameIdentifiers (node_reset r)) →
  (∀ r, nodeMethodWithin sameIdentifiers (op_getValue r)) →
  (∀ r, nodeMethodWithin sameIdentifiers (node_getGradient r)) →
  (∀ r, nodeMethodWithin sameIdentifiers (cost_makePredictions r)) →
  let st := run s pw calls in
  let inserted := flat_map insertedBy calls in
  operations (graph st) = inserted
  ∧ nOperations (graph st) = length inserted
  ∧ (∀ operation doGradient asFinal asFeeder,
       referenceNumber
         (nodes (exec (CallAddOperation operation doGradient asFinal asFeeder)
                      st) operation)
       = Some (length inserted))
  ∧ (∀ c, insertedBy c = [] → sameIdentifiers (nodes st) (nodes (exec c st)))
  ∧ (NoDup inserted →
     ∀ k r, inserted !! k = Some r → referenceNumber (nodes st r) = Some k).
Proof.
  intros Hreset Hvalue Hgrad Hpred.
  assert (Hother : ∀ (c : Call) st, insertedBy c = [] →
            evolves sameIdentifiers eq st (exec c st)).
  { intros c st Hc.
    apply exec_within; auto using set_testing_sameIdentifiers,
      set_data_sameIdentifiers. apply _. }
  cbv zeta.
  assert (Hinv : operations (graph (run s pw calls))
                 = flat_map insertedBy calls
               ∧ nOperations (graph (run s pw calls))
                 = length (flat_map insertedBy calls)
               ∧ (NoDup (flat_map insertedBy calls) →
                  ∀ k r, flat_map insertedBy calls !! k = Some r →
                         referenceNumber (nodes (run s pw calls) r) = Some k)).
  { induction calls as [|c calls IH] using rev_ind.
    - repeat split; try done; intros _ k r Hk; by rewrite lookup_nil in Hk.
    - rewrite run_snoc, flat_map_insertedBy_snoc.
      set (st := run s pw calls) in *.
      destruct IH as (Hops & Hn & Hids).
      destruct (insertedBy c) eqn:Hc.
      + destruct (Hother c st Hc) as [Hsame Hg].
        rewrite app_nil_r, <- Hg. repeat split; try done.
        intros Hnd k r Hk. rewrite Hsame. by apply Hids.
      + destruct c as [operation dg fin fd| | | | | | | | |];
          try discriminate Hc.
        cbn in Hc. injection Hc as <- <-. cbn [exec].
        destruct (addOperation_leaves operation dg fin fd st)
          as (Hnodes & Hops' & Hn' & _).
        rewrite Hnodes, Hops', Hn', Hops, Hn, length_app.
        repeat split; try done.
        intros Hnd k r Hk. apply NoDup_app in Hnd as (Hnd & Hfresh & _).
        unfold registerNode. cbn [nodes].
        destruct (decide (k < length (flat_map insertedBy calls))) as [Hlt|Hge].
        * rewrite lookup_app_l in Hk by done.
          rewrite fn_lookup_insert_ne.
          { by apply Hids. }
          intros ->. apply (Hfresh r); [|left].
          by eapply list_elem_of_lookup_2.
        * rewrite lookup_app_r in Hk by lia.
          apply list_lookup_singleton_Some in Hk as [Hk <-].
          rewrite fn_lookup_insert. cbn. f_equal. lia. }
  destruct Hinv as (Hops & Hn & Hids).
  repeat split; try done.
  - intros operation dg fin fd. cbn [exec].
    destruct (addOperation_leaves operation dg fin fd (run s pw calls))
      as (Hnodes & _).
    rewrite Hnodes. unfold registerNode. cbn [nodes].
    by rewrite fn_lookup_insert; cbn; rewrite Hn.
  - intros c Hc. by apply Hother.
Qed.

(** ** Sinks *)

Lemma insertions_inserted (ins : list Insertion) :
  flat_map insertedBy (map (insertionCall (A:=A)) ins) = map ins_operation ins.
Proof. induction ins as [|i ins IH]; [done|]. cbn. by rewrite IH. Qed.

(** Insertions assign identifiers and nothing else. *)
Lemma run_insertions_sameLinks s pw (ins : list Insertion) :
  sameLinks s (nodes (run s pw (map insertionCall ins))).
Proof.
  induction ins as [|i ins IH] using rev_ind; [by intros r|].
  rewrite map_app. cbn [map]. rewrite run_snoc.
  set (st := run s pw (map insertionCall ins)) in *.
  destruct i as [operation dg fin fd].
  cbn [insertionCall exec ins_operation ins_doGradient ins_finalOperation
       ins_feederOperation].
  destruct (addOperation_leaves operation dg fin fd st) as (Hnodes & _).
  intros r. rewrite Hnodes. unfold registerNode. cbn [nodes].
  unfold insert, fn_insert. case_decide; subst; apply IH.
Qed.

Lemma dependencyOrdered_closed (s : Store A) ops m i :
  dependencyOrdered s ops → m ∈ ops → i ∈ inputs (s m) → i ∈ ops.
Proof.
  intros Hdep Hm Hi. apply list_elem_of_lookup in Hm as [k Hk].
  specialize (Hdep k m Hk i Hi). by apply (subseteq_take k ops).
Qed.

Lemma dependencyOrdered_snoc (s : Store A) ops op :
  dependencyOrdered s (ops ++ [op]) →
  dependencyOrdered s ops ∧ ∀ i, i ∈ inputs (s op) → i ∈ ops.
Proof.
  intros Hdep. split.
  - intros k r Hk i Hi.
    pose proof (lookup_lt_Some _ _ _ Hk) as Hlt.
    specialize (Hdep k r). rewrite lookup_app_l in Hdep by done.
    specialize (Hdep Hk i Hi). by rewrite take_app_le in Hdep by lia.
  - intros i Hi. specialize (Hdep (length ops) op).
    rewrite lookup_app_r, Nat.sub_diag in Hdep by done.
    specialize (Hdep eq_refl i Hi).
    by rewrite take_app_length in Hdep.
Qed.

Lemma sinks_of_insertions s pw (ins : list Insertion) :
  backReferencesConsistent s →
  NoDup (map ins_operation ins) →
  dependencyOrdered s (map ins_operation ins) →
  ∀ r, r ∈ endOperations (graph (run s pw (map insertionCall ins)))
       ↔ r ∈ map ins_operation ins
         ∧ ∀ m, m ∈ map ins_operation ins → r ∉ inputs (s m).
Proof.
  intros Hback. induction ins as [|i ins IH] using rev_ind.
  - intros _ _ r. cbn. split; [by intros ?%elem_of_nil|].
    by intros [?%elem_of_nil _].
  - rewrite !map_app. cbn [map]. intros Hnd Hdep r.
    apply NoDup_app in Hnd as (Hnd & Hfresh & _).
    apply dependencyOrdered_snoc in Hdep as [Hdep Hinputs].
    specialize (IH Hnd Hdep).
    rewrite run_snoc.
    pose proof (run_insertions_sameLinks s pw ins) as Hlinks.
    set (st := run s pw (map insertionCall ins)) in *.
    destruct i as [operation dg fin fd].
    cbn [insertionCall exec ins_operation ins_doGradient ins_finalOperation
         ins_feederOperation] in *.
    destruct (addOperation_leaves operation dg fin fd st)
      as (_ & _ & _ & -> & _).
    unfold sinksAfter. rewrite list_elem_of_filter, !elem_of_app,
      !list_elem_of_singleton.
    destruct (Hlinks r) as [_ ->]. rewrite (Hback r operation).
    assert (Hop : operation ∉ map ins_operation ins).
    { intros Hin. apply (Hfresh operation Hin). by left. }
    split.
    + intros [Hnot [Hr | ->]].
      * apply IH in Hr as [Hr Hnone]. split; [by left|].
        intros m Hm. apply elem_of_app in Hm as [Hm | Hm]; [by apply Hnone|].
        by apply list_elem_of_singleton in Hm as ->.
      * split; [by right|]. intros m Hm.
        apply elem_of_app in Hm as [Hm | Hm].
        -- intros Hi. apply Hop. by eapply dependencyOrdered_closed.
        -- by apply list_elem_of_singleton in Hm as ->.
    + intros [Hr Hnone]. split.
      * apply Hnone. apply elem_of_app. right. by left.
      * destruct Hr as [Hr | ->]; [left | by right].
        apply IH. split; [done|]. intros m Hm. apply Hnone.
        apply elem_of_app. by left.
Qed.

(** C5 (as amended): when no node is inserted twice and every node is
    inserted after its inputs, then after every insertion (also one that
    raised) the sinks are exactly the registered nodes that no registered
    node has among its inputs. *)
Theorem sinks_are_the_unconsumed_nodes s pw (ins : list Insertion) :
  backReferencesConsistent s →
  NoDup (map ins_operation ins) →
  dependencyOrdered s (map ins_operation ins) →
  ∀ n, let st := run s pw (map insertionCall (take n ins)) in
       ∀ r, r ∈ endOperations (graph st)
            ↔ r ∈ operations (graph st)
              ∧ ∀ m, m ∈ operations (graph st) → r ∉ inputs (nodes st m).
Proof.
  intros Hback Hnd Hdep n st r.
  assert (Hnd' : NoDup (map ins_operation (take n ins))).
  { rewrite <- firstn_map. eapply sublist_NoDup; [done | apply sublist_take]. }
  assert (Hdep' : dependencyOrdered s (map ins_operation (take n ins))).
  { rewrite <- firstn_map. intros k t Hk i Hi.
    apply lookup_take_Some in Hk as [Hk Hlt].
    rewrite take_take, Nat.min_l by lia. by apply (Hdep k t). }
  pose proof (sinks_of_insertions s pw (take n ins) Hback Hnd' Hdep' r) as Hs.
  pose proof (run_operations s pw (map insertionCall (take n ins))) as [Hops _].
  rewrite insertions_inserted in Hops.
  pose proof (run_insertions_sameLinks s pw (take n ins)) as Hlinks.
  fold st in Hs, Hops, Hlinks. rewrite Hops, Hs.
  split; intros [Hr Hnone]; (split; [done|]); intros m Hm.
  - destruct (Hlinks m) as [-> _]. by apply Hnone.
  - destruct (Hlinks m) as [<- _]. by apply Hnone.
Qed.

(** ** The mode controller *)

Lemma set_testing_idem b (n : Node A) :
  set_testing b (set_testing b n) = set_testing b n.
Proof. done. Qed.

(** The loop that assigns [op.testing] on every registered node. *)
Lemma mode_loop b ops (st : State A) :
  ∃ st',
    forEach (E:=E) ops (λ op, modifyNode op (set_testing b)) st
      = (Returns tt, st')
    ∧ graph st' = graph st
    ∧ ∀ r, nodes st' r = if decide (r ∈ ops) then set_testing b (nodes st r)
                         else nodes st r.
Proof.
  revert st. induction ops as [|x ops IH]; intros st.
  - exists st. repeat split; try done.
  - cbn [forEach]. mrun.
    destruct (IH (mkState (<[x := set_testing b (nodes st x)]> (nodes st))
                          (graph st) (warned st)))
      as (st' & -> & Hg & Hn).
    exists st'. repeat split; try done. intros r. rewrite Hn. cbn [nodes].
    destruct (decide (r = x)) as [->|Hne].
    + rewrite fn_lookup_insert, (decide_True _ _ (list_elem_of_here _ _)).
      by case_decide.
    + rewrite fn_lookup_insert_ne by done.
      destruct (decide (r ∈ ops)) as [Hin|Hnin].
      * by rewrite decide_True by (by right).
      * rewrite decide_False; [done|].
        by intros [?|?]%elem_of_cons.
Qed.

(** [resetAll] raises only what a node raised. *)
Lemma reset_loop_raises ops st e st' :
  forEach ops (λ op, callNode (node_reset op)) st = (Raises e, st') →
  ∃ e', e = NodeRaised e'.
Proof.
  revert st. induction ops as [|x ops IH]; intros st; [done|].
  cbn [forEach]. rewrite !bind_run. unfold callNode at 1.
  destruct (node_reset x (nodes st)) as [[e1|[]] s1].
  - intros [= <- <-]. by exists e1.
  - apply IH.
Qed.

Lemma resetAll_raises st e st' :
  resetAll st = (Raises e, st') → ∃ e', e = NodeRaised e'.
Proof. unfold resetAll. mrun. apply reset_loop_raises. Qed.

(** C3 (as amended): when the final node is a cost operation,
    [makePredictions] leaves the graph as it was; when it returns, every
    registered node is in training mode; when it raises, the exception is
    the one [reset] or the prediction raised, no flag is restored, and,
    the node methods not writing the mode flag themselves, every
    registered node is left in evaluation mode. *)
Theorem makePredictions_mode_flags st out st' :
  isinstanceCost classOf (finalOperation (graph st)) = true →
  makePredictions st = (out, st') →
  graph st' = graph st
  ∧ match out with
    | Returns _ =>
        ∀ r, r ∈ operations (graph st) → testing (nodes st' r) = false
    | Raises e =>
        (∃ e', e = NodeRaised e')
        ∧ ((∀ r, nodeMethodWithin sameModeFlags (node_reset r)) →
           (∀ r, nodeMethodWithin sameModeFlags (cost_makePredictions r)) →
           ∀ r, r ∈ operations (graph st) → testing (nodes st' r) = true)
    end.
Proof.
  intros Hcost. unfold makePredictions. mrun. rewrite Hcost. cbn [negb].
  destruct (finalOperation (graph st)) as [final|] eqn:Hfin; [|done].
  rewrite bind_run.
  destruct (mode_loop true (operations (graph st)) st) as (st1 & -> & Hg1 & Hn1).
  rewrite bind_run.
  pose proof (resetAll_raises st1) as Hraise.
  pose proof (λ H, resetAll_within sameModeFlags H st1) as Hflags.
  pose proof (resetAll_within anyNodes ltac:(by intros ? ?) st1) as [_ Hg2].
  destruct (resetAll st1) as [[[]|e] st2]; cbn [snd] in *.
  2:{ intros [= <- <-]. split; [congruence|]. split; [by eapply Hraise|].
      intros Hreset _ r Hr. destruct (Hflags Hreset) as [-> _].
      rewrite Hn1, decide_True by done. done. }
  rewrite bind_run. unfold callNode at 1.
  pose proof (λ H : ∀ r, nodeMethodWithin sameModeFlags (cost_makePredictions r),
                H final (nodes st2)) as Hpred.
  destruct (cost_makePredictions final (nodes st2)) as [[e|pred] s3];
    cbn [snd] in *.
  - intros [= <- <-]. cbn [graph nodes]. split; [congruence|].
    split; [by exists e|]. intros Hreset Hp r Hr.
    rewrite (Hpred Hp r). destruct (Hflags Hreset) as [-> _].
    rewrite Hn1, decide_True by done. done.
  - rewrite bind_run.
    destruct (mode_loop false (operations (graph st))
                (mkState s3 (graph st2) (warned st2)))
      as (st4 & -> & Hg4 & Hn4).
    mrun. intros [= <- <-]. split; [cbn in *; congruence|].
    intros r Hr. rewrite Hn4, decide_True by done. done.
Qed.

(** ** Forward evaluation *)

(** Once the loop of [resetAll] has returned, the caches of the nodes it
    went over are cleared, and so are those that were cleared before. *)
Lemma reset_loop_clears ops st st1 :
  resetClearsCache classOf node_reset →
  forEach ops (λ op, callNode (node_reset op)) st = (Returns tt, st1) →
  ∀ r, r ∈ ops ∨ cacheCleared classOf r (nodes st r) →
       cacheCleared classOf r (nodes st1 r).
Proof.
  intros Hreset. revert st. induction ops as [|x ops IH]; intros st.
  - cbn. intros [= <-] r [Hr | Hr]; [by apply elem_of_nil in Hr | done].
  - cbn [forEach]. rewrite bind_run. unfold callNode at 1.
    destruct (node_reset x (nodes st)) as [[e|[]] s1] eqn:Hx; [done|].
    intros Hloop r Hr. apply (IH _ Hloop). cbn [nodes].
    destruct (Hreset x (nodes st) s1 Hx) as [Hcleared Hframe].
    destruct (decide (r ∈ ops)) as [Hin|Hnin]; [by left | right].
    destruct Hr as [[-> | Hr]%elem_of_cons | Hr]; [done | done | by apply Hframe].
Qed.

(** C7: [getValue] first runs [reset] on every registered node, in
    insertion order, which clears the cached value and gradient of each,
    and then asks the final node for its value; [feedForward] asks the
    final node for its value on the nodes as they are. *)
Theorem getValue_resets_then_evaluates st final :
  resetClearsCache classOf node_reset →
  finalOperation (graph st) = Some final →
  feedForward st = callNode (node_getValue classOf op_getValue final) st
  ∧ resetAll st
    = forEach (operations (graph st)) (λ op, callNode (node_reset op)) st
  ∧ match resetAll st with
    | (Returns _, st1) =>
        graph st1 = graph st
        ∧ (∀ r, r ∈ operations (graph st) →
                cacheCleared classOf r (nodes st1 r))
        ∧ getValue st
          = callNode (node_getValue classOf op_getValue final) st1
    | (Raises e, st1) => getValue st = (Raises e, st1)
    end.
Proof.
  intros Hreset Hfinal. split; [|split].
  - unfold feedForward. mrun. by rewrite Hfinal.
  - unfold resetAll. by mrun.
  - unfold getValue. rewrite bind_run.
    pose proof (resetAll_within anyNodes ltac:(by intros ? ?) st) as [_ Hg].
    pose proof (reset_loop_clears (operations (graph st)) st) as Hclears.
    unfold resetAll in *. rewrite bind_run in *. cbn [getGraph] in *.
    destruct (forEach _ _ st) as [[[]|e] st1]; [|done]. cbn [snd] in Hg.
    split; [done|]. split.
    + intros r Hr. apply (Hclears st1 Hreset eq_refl). by left.
    + unfold feedForward. mrun. by rewrite <- Hg, Hfinal.
Qed.

(** ** The parameter codec *)

Lemma py_slice_length (v : list A) p n :
  length (py_slice v p n) = n `min` (length v - p).
Proof. unfold py_slice. by rewrite length_take, length_drop. Qed.

Lemma py_slice_take (v : list A) T p n :
  p + n ≤ T → py_slice (take T v) p n = py_slice v p n.
Proof.
  intros H. unfold py_slice. replace T with (p + (T - p)) by lia.
  rewrite <- take_drop_commute, take_take. f_equal. lia.
Qed.

(** One turn of the loop of [attachParameters] on a Variable. *)
Lemma attachParameters_step_run params pointer op (st : State A) :
  classOf op = KVariable →
  attachParameters_step (E:=E) classOf params pointer op st
  = match np_reshape (py_slice params pointer (np_size (result (nodes st op))))
                     (shape (nodes st op)) with
    | Some data =>
        (Returns (pointer + np_size (result (nodes st op))),
         mkState (<[op := set_data data (nodes st op)]> (nodes st))
                 (graph st) (warned st))
    | None => (Raises CannotReshape, st)
    end.
Proof.
  intros Hk. unfold attachParameters_step. rewrite Hk. cbn [isVariable negb].
  mrun. destruct (np_reshape _ _); [|done].
  unfold Variable_assignData. by mrun.
Qed.

(** Assigning data of the shape a Variable has changes no size. *)
Lemma assign_keeps_sizes (s : Store A) op sl r :
  shapeMatchesResult (s op) →
  np_size (result ((<[op := set_data (mkArray (shape (s op)) sl) (s op)]> s) r))
    = np_size (result (s r))
  ∧ shape ((<[op := set_data (mkArray (shape (s op)) sl) (s op)]> s) r)
    = shape (s r).
Proof.
  intros Hop. unfold insert, fn_insert. case_decide; subst; [|done].
  cbn. by rewrite Hop.
Qed.

Lemma attach_loop_returns params T ops pointer (st : State A) :
  (∀ r, r ∈ ops → classOf r = KVariable ∧ shapeMatchesResult (nodes st r)) →
  pointer + sum_list (map (λ r, np_size (result (nodes st r))) ops) ≤ T →
  T ≤ length params →
  ∃ st',
    forFold (E:=E) ops pointer (attachParameters_step classOf params) st
      = (Returns
           (pointer + sum_list (map (λ r, np_size (result (nodes st r))) ops)),
         st')
    ∧ forFold (E:=E) ops pointer
        (attachParameters_step classOf (take T params)) st
      = (Returns
           (pointer + sum_list (map (λ r, np_size (result (nodes st r))) ops)),
         st').
Proof.
  revert pointer st. induction ops as [|op ops IH]; intros pointer st Hinv HT Hlen.
  - exists st. cbn. by rewrite Nat.add_0_r.
  - destruct (Hinv op ltac:(left)) as [Hk Hshape].
    cbn [forFold map sum_list sum_list_with id] in *. rewrite !bind_run.
    rewrite !attachParameters_step_run by done.
    rewrite py_slice_take by lia.
    pose proof Hshape as Hn. unfold shapeMatchesResult in Hn.
    unfold np_reshape.
    rewrite decide_True by (rewrite py_slice_length, <- Hn; lia).
    set (st1 := mkState _ _ _).
    assert (Hsizes : map (λ r, np_size (result (nodes st1 r))) ops
                     = map (λ r, np_size (result (nodes st r))) ops).
    { apply map_ext. intros r. by apply assign_keeps_sizes. }
    destruct (IH (pointer + np_size (result (nodes st op))) st1)
      as (st' & H1 & H2).
    + intros r Hr. destruct (Hinv r ltac:(by right)) as [Hkr Hsr].
      split; [done|]. unfold shapeMatchesResult, st1. cbn [nodes].
      destruct (assign_keeps_sizes (nodes st) op
                  (py_slice params pointer (np_size (result (nodes st op)))) r
                  Hshape) as [-> ->].
      done.
    + rewrite Hsizes. lia.
    + done.
    + exists st'. rewrite Hsizes, <- Nat.add_assoc in H1, H2. done.
Qed.

Lemma attach_loop_raises params ops pointer (st : State A) :
  (∀ r, r ∈ ops → classOf r = KVariable ∧ shapeMatchesResult (nodes st r)) →
  pointer ≤ length params →
  length params
    < pointer + sum_list (map (λ r, np_size (result (nodes st r))) ops) →
  (forFold (E:=E) ops pointer (attachParameters_step classOf params) st).1
  = Raises CannotReshape.
Proof.
  revert pointer st. induction ops as [|op ops IH]; intros pointer st Hinv Hp Hlen.
  - cbn in Hlen. lia.
  - destruct (Hinv op ltac:(left)) as [Hk Hshape].
    cbn [forFold map sum_list sum_list_with id] in *. rewrite !bind_run.
    rewrite !attachParameters_step_run by done.
    pose proof Hshape as Hn. unfold shapeMatchesResult in Hn.
    unfold np_reshape.
    destruct (decide (pointer + np_size (result (nodes st op))
                      ≤ length params)) as [Hfits|Hshort].
    + rewrite decide_True by (rewrite py_slice_length, <- Hn; lia).
      set (st1 := mkState _ _ _).
      assert (Hsizes : map (λ r, np_size (result (nodes st1 r))) ops
                       = map (λ r, np_size (result (nodes st r))) ops).
      { apply map_ext. intros r. by apply assign_keeps_sizes. }
      apply IH.
      * intros r Hr. destruct (Hinv r ltac:(by right)) as [Hkr Hsr].
        split; [done|]. unfold shapeMatchesResult, st1. cbn [nodes].
        destruct (assign_keeps_sizes (nodes st) op
                    (py_slice params pointer (np_size (result (nodes st op)))) r
                    Hshape) as [-> ->].
        done.
      * done.
      * rewrite Hsizes. lia.
    + by rewrite decide_False by (rewrite py_slice_length, <- Hn; lia).
Qed.

(** C2 (as amended): on a graph whose targets are Variables whose shape is
    that of their data, [attachParameters] raises numpy's reshape error
    when the vector is shorter than the element counts of the targets
    taken together; when the vector is longer it returns, and does exactly
    what it does on the vector cut to that length: the surplus entries
    are ignored. *)
Theorem attachParameters_length_mismatch st params :
  (∀ r, r ∈ gradientOps (graph st) →
        classOf r = KVariable ∧ shapeMatchesResult (nodes st r)) →
  (length params < targetElementCount st →
   (attachParameters params st).1 = Raises CannotReshape)
  ∧ (targetElementCount st < length params →
     (attachParameters params st).1 = Returns tt
     ∧ attachParameters params st
       = attachParameters (take (targetElementCount st) params) st).
Proof.
  intros Hinv. unfold targetElementCount, attachParameters. mrun. split.
  - intros Hshort. rewrite ?bind_run.
    pose proof (attach_loop_raises params (gradientOps (graph st)) 0 st
                  Hinv ltac:(lia) Hshort) as Hloop.
    destruct (forFold _ _ _ st) as [[p|e] st1]; [done|].
    cbn in Hloop. by injection Hloop as ->.
  - intros Hlong. rewrite ?bind_run.
    destruct (attach_loop_returns params _ (gradientOps (graph st)) 0 st
                Hinv (le_n _) ltac:(cbn; lia)) as (st' & H1 & H2).
    cbn [Nat.add] in H2. by rewrite H1, H2.
Qed.

(** *** Stacking *)

Lemma hstackAll_snoc (acc : list A) segs seg :
  hstackAll toCommonDtype acc (segs ++ [seg])
  = np_hstack toCommonDtype (hstackAll toCommonDtype acc segs) seg.
Proof.
  revert acc. induction segs as [|s0 segs IH]; intros acc; [done|].
  cbn [app hstackAll]. apply IH.
Qed.

Lemma np_hstack_length (params new : list A) :
  length (np_hstack toCommonDtype params new) = length params + length new.
Proof. unfold np_hstack. by rewrite length_map, length_app. Qed.

(** Stacking extends the vector by as many elements as the arrays have. *)
Lemma hstackAll_length (acc : list A) segs :
  length (hstackAll toCommonDtype acc segs)
  = length acc + sum_list (map length segs).
Proof.
  revert acc. induction segs as [|s0 segs IH]; intros acc.
  - cbn. lia.
  - cbn [hstackAll map sum_list sum_list_with id].
    rewrite IH, np_hstack_length. lia.
Qed.

(** Stacking keeps the elements gathered so far in place, converted. *)
Lemma hstackAll_extends (acc : list A) segs :
  ∃ tail,
    hstackAll toCommonDtype acc segs
    = map (hstackAllConversion toCommonDtype acc segs) acc ++ tail.
Proof.
  revert acc. induction segs as [|s0 segs IH]; intros acc.
  - exists []. cbn [hstackAll hstackAllConversion].
    by rewrite app_nil_r, map_id.
  - cbn [hstackAll hstackAllConversion].
    destruct (IH (np_hstack toCommonDtype acc s0)) as (tail & ->).
    exists (map (hstackAllConversion toCommonDtype
                   (np_hstack toCommonDtype acc s0) segs)
                (map (toCommonDtype acc s0) s0) ++ tail).
    unfold np_hstack at 2. rewrite !map_app, map_map.
    by rewrite (assoc_L (++)).
Qed.

(** Arrays whose elements are stored as they are are just concatenated. *)
Lemma hstackAll_exact (acc : list A) segs :
  (∀ params new x, x ∈ acc → toCommonDtype params new x = x) →
  (∀ seg, seg ∈ segs →
     ∀ params new x, x ∈ seg → toCommonDtype params new x = x) →
  hstackAll toCommonDtype acc segs = acc ++ concat segs.
Proof.
  revert acc. induction segs as [|s0 segs IH]; intros acc Hacc Hexact.
  - cbn. by rewrite app_nil_r.
  - cbn [hstackAll concat].
    assert (Hstack : np_hstack toCommonDtype acc s0 = acc ++ s0).
    { unfold np_hstack. rewrite <- (map_id (acc ++ s0)) at 2.
      apply map_ext_in. intros x [Hx|Hx]%list_elem_of_In%elem_of_app.
      - by apply Hacc.
      - apply (Hexact s0); [by left | done]. }
    rewrite Hstack, IH, <- (assoc_L (++)); [done| |].
    + intros params new x [Hx|Hx]%elem_of_app; [by apply Hacc|].
      apply (Hexact s0); [by left | done].
    + intros seg Hs params new x Hx. apply (Hexact seg); [by right | done].
Qed.

(** Segment [i] of a stacked vector starts where the segments before it
    end, and holds array [i] as the call that stacked it and the calls
    after it converted it. *)
Lemma hstackAll_segment (acc : list A) segs i seg :
  segs !! i = Some seg →
  py_slice (hstackAll toCommonDtype acc segs)
           (length acc + segmentOffset (map length segs) i) (length seg)
  = map (hstackAllConversion toCommonDtype
           (hstackAll toCommonDtype acc (take i segs)) (drop i segs)) seg.
Proof.
  unfold py_slice, segmentOffset. revert acc i.
  induction segs as [|s0 segs IH]; intros acc i Hi; [done|].
  destruct i as [|i]; cbn in Hi.
  - injection Hi as ->.
    cbn [map firstn take drop sum_list sum_list_with hstackAll
         hstackAllConversion].
    rewrite Nat.add_0_r.
    destruct (hstackAll_extends (np_hstack toCommonDtype acc seg) segs)
      as (tail & ->).
    unfold np_hstack at 2. rewrite !map_app, <- !(assoc_L (++)).
    rewrite drop_app_length' by (by rewrite !length_map).
    rewrite take_app_length' by (by rewrite !length_map).
    by rewrite map_map.
  - cbn [map firstn take drop sum_list sum_list_with id hstackAll].
    specialize (IH (np_hstack toCommonDtype acc s0) i Hi).
    rewrite np_hstack_length in IH. by rewrite !Nat.add_assoc.
Qed.

(** *** The loops *)

(** The loop of [unrollGradientParameters] over Variables reads the
    targets in list order and leaves the state alone. *)
Lemma unroll_loop ops acc (st : State A) :
  (∀ r, r ∈ ops → classOf r = KVariable) →
  forFold ops acc
    (unrollGradientParameters_step (E:=E) pyNone classOf op_getValue
                                   toCommonDtype) st
  = (Returns
       (hstackAll toCommonDtype acc
          (map (λ r, np_ravel pyNone (result (nodes st r))) ops)),
     st).
Proof.
  revert acc. induction ops as [|op ops IH]; intros acc Hk; [done|].
  cbn [forFold]. rewrite bind_run. unfold unrollGradientParameters_step.
  rewrite (Hk op) by left. cbn [isVariable negb]. rewrite bind_run.
  unfold callNode, node_getValue. rewrite (Hk op) by left.
  cbn [isVariable Variable_getValue]. rewrite state_eta. mrun.
  by rewrite IH by (intros r Hr; apply Hk; by right).
Qed.

(** A loop that returned met only Variables. *)
Lemma unroll_loop_returned ops acc (st : State A) params st' :
  forFold ops acc
    (unrollGradientParameters_step (E:=E) pyNone classOf op_getValue
                                   toCommonDtype) st
  = (Returns params, st') →
  ∀ r, r ∈ ops → classOf r = KVariable.
Proof.
  revert acc st. induction ops as [|op ops IH]; intros acc st Hrun r Hr.
  - by apply elem_of_nil in Hr.
  - cbn [forFold] in Hrun. rewrite bind_run in Hrun.
    unfold unrollGradientParameters_step in Hrun at 1.
    destruct (classOf op) eqn:Hk; try done.
    apply elem_of_cons in Hr as [-> | Hr]; [done|].
    cbn [isVariable negb] in Hrun. rewrite bind_run in Hrun.
    destruct (callNode _ st) as [[v|e] st1]; [|done].
    cbn [mret M_ret ret] in Hrun. by eapply IH.
Qed.




(** The loop of [unrollGradients] over Variables asks for the gradients
    in list order and stacks them. *)
Lemma unrollGradients_loop ops acc (st : State A) :
  (∀ r, r ∈ ops → classOf r = KVariable) →
  forFold ops acc
    (unrollGradients_step (E:=E) pyNone classOf node_getGradient
                          toCommonDtype) st
  = match collectGradients node_getGradient ops (nodes st) with
    | (inr gs, s') =>
        (Returns (hstackAll toCommonDtype acc (map (np_ravel pyNone) gs)),
         mkState s' (graph st) (warned st))
    | (inl e, s') =>
        (Raises (NodeRaised e), mkState s' (graph st) (warned st))
    end.
Proof.
  revert acc st. induction ops as [|op ops IH]; intros acc st Hk.
  - cbn. by rewrite state_eta.
  - cbn [forFold collectGradients]. rewrite bind_run.
    unfold unrollGradients_step at 1.
    rewrite (Hk op) by left. cbn [isVariable negb]. rewrite bind_run.
    unfold callNode.
    destruct (node_getGradient op (nodes st)) as [[e|g] s1]; [done|].
    mrun. rewrite IH by (intros r Hr; apply Hk; by right).
    cbn [nodes graph warned].
    by destruct (collectGradients node_getGradient ops s1) as [[e|gs] s2].
Qed.

Lemma collectGradients_length ops (s : Store A) gs s' :
  collectGradients node_getGradient ops s = (inr gs, s') →
  length gs = length ops.
Proof.
  revert s gs. induction ops as [|op ops IH]; intros s gs.
  - cbn. by intros [= <- <-].
  - cbn [collectGradients].
    destruct (node_getGradient op s) as [[e|g] s1]; [done|].
    destruct (collectGradients node_getGradient ops s1) as [[e|gs'] s2] eqn:Hc;
      [done|].
    intros [= <- <-]. cbn. f_equal. by eapply IH.
Qed.

Lemma Forall2_ravel_lengths (vals gs : list (option (ndarray A))) :
  Forall2 (λ v g, length (np_ravel pyNone g) = length (np_ravel pyNone v))
          vals gs →
  map length (map (np_ravel pyNone) gs)
  = map length (map (np_ravel pyNone) vals).
Proof. induction 1 as [|v g vals gs Hvg _ IH]; cbn; congruence. Qed.

(** C8: when both methods return, [unrollGradients] stacks, in
    gradient-target-list order, the flattened gradients the targets
    returned, as [unrollGradientParameters] stacks their flattened
    values; and when each gradient has as many elements as the value of
    its target, the segment of target [i] starts at the same offset and
    has the same length in both vectors: it holds the flattened value,
    respectively gradient, of target [i] as the calls of [np.hstack]
    converted it. *)
Theorem unrolled_gradients_align_with_parameters st params st1 grads st2 :
  unrollGradientParameters st = (Returns params, st1) →
  unrollGradients st = (Returns grads, st2) →
  ∃ gs,
    collectGradients node_getGradient (gradientOps (graph st)) (nodes st)
      = (inr gs, nodes st2)
    ∧ params
      = hstackAll toCommonDtype [] (map (np_ravel pyNone) (targetValues st))
    ∧ grads = hstackAll toCommonDtype [] (map (np_ravel pyNone) gs)
    ∧ length gs = length (targetValues st)
    ∧ (Forall2 (λ v g, length (np_ravel pyNone g) = length (np_ravel pyNone v))
               (targetValues st) gs →
       ∀ i v g, targetValues st !! i = Some v → gs !! i = Some g →
         let offset :=
           segmentOffset (map length (map (np_ravel pyNone) (targetValues st)))
                         i in
         py_slice params offset (length (np_ravel pyNone v))
           = storedSegment toCommonDtype
               (map (np_ravel pyNone) (targetValues st)) i (np_ravel pyNone v)
         ∧ py_slice grads offset (length (np_ravel pyNone v))
           = storedSegment toCommonDtype
               (map (np_ravel pyNone) gs) i (np_ravel pyNone g)).
Proof.
  unfold unrollGradientParameters, unrollGradients, targetValues. mrun.
  intros Hparams Hgrads.
  pose proof (unroll_loop_returned _ _ _ _ _ Hparams) as Hk.
  rewrite unroll_loop in Hparams by done. injection Hparams as <- <-.
  rewrite unrollGradients_loop in Hgrads by done.
  destruct (collectGradients _ _ _) as [[e|gs] s2] eqn:Hcollect; [done|].
  injection Hgrads as <- <-. exists gs. cbn [nodes].
  set (vals := map (λ r, result (nodes st r)) (gradientOps (graph st))) in *.
  assert (Hvals : map (λ r, np_ravel pyNone (result (nodes st r)))
                      (gradientOps (graph st))
                  = map (np_ravel pyNone) vals).
  { unfold vals. by rewrite map_map. }
  rewrite Hvals. split; [done|]. split; [done|]. split; [done|].
  split.
  { unfold vals. rewrite length_map. by eapply collectGradients_length. }
  intros Hsame i v g Hv Hg.
  split.
  - apply (hstackAll_segment []).
    change (map ?f ?l) with (f <$> l). by rewrite list_lookup_fmap, Hv.
  - rewrite <- (Forall2_ravel_lengths _ _ Hsame).
    assert (Hlen : length (np_ravel pyNone v) = length (np_ravel pyNone g)).
    { symmetry. by eapply (Forall2_lookup_lr _ _ _ _ _ _ Hsame). }
    rewrite Hlen. apply (hstackAll_segment []).
    change (map ?f ?l) with (f <$> l). by rewrite list_lookup_fmap, Hg.
Qed.

End Properties.

(** * The theorems on the example nodes *)

(** ** Registration *)

(** C1, as stated, fails on the empty graph: marking the operation 1 as a
    gradient target raises, and yet the node sequence, the counter and
    the sinks have changed. *)
Lemma addOperation_invalid_gradient_target_registers :
  let st := ex_run [] in
  let r := ex_addOperation 1 true false false st in
  ex_classOf 1 ≠ KVariable
  ∧ r.1 = Raises InvalidGradientTarget
  ∧ operations (graph r.2) ≠ operations (graph st)
  ∧ nOperations (graph r.2) ≠ nOperations (graph st)
  ∧ endOperations (graph r.2) ≠ endOperations (graph st).
Proof. by vm_compute. Qed.

Lemma addOperation_invalid_gradient_target_witness :
  ex_classOf 1 ≠ KVariable
  ∧ ∃ st',
      ex_addOperation 1 true false false (ex_run [])
        = (Raises InvalidGradientTarget, st')
      ∧ gradientOps (graph st') = []
      ∧ finalOperation (graph st') = None
      ∧ feederOperation (graph st') = None
      ∧ operations (graph st') = [1]
      ∧ nOperations (graph st') = 1
      ∧ endOperations (graph st')
        = sinksAfter ex_nodes 1 []
      ∧ referenceNumber (nodes st' 1) = Some 0.
Proof.
  split; [done|].
  apply (addOperation_invalid_gradient_target ex_classOf false 1 false false
           (ex_run [])).
  done.
Defined.

(** ** The parameter codec *)

Lemma ex_target_x r :
  r ∈ gradientOps (graph (ex_run [ex_add 0 true])) →
  ex_classOf r = KVariable
  ∧ holdsValue (nodes (ex_run [ex_add 0 true]) r).
Proof.
  intros Hr. change (r ∈ [0]) in Hr. apply list_elem_of_singleton in Hr as ->.
  split; [done|]. by exists ex_x.
Qed.

Lemma ex_target_x_shape r :
  r ∈ gradientOps (graph (ex_run [ex_add 0 true])) →
  ex_classOf r = KVariable
  ∧ shapeMatchesResult (nodes (ex_run [ex_add 0 true]) r).
Proof.
  intros Hr. change (r ∈ [0]) in Hr. apply list_elem_of_singleton in Hr as ->.
  done.
Qed.


(** C2, as stated, fails on a vector that is too long: the target [x] has
    two elements, the vector three, and [attachParameters] returns, having
    assigned the first two. *)
Lemma attachParameters_accepts_surplus :
  let st := ex_run [ex_add 0 true] in
  let params := [PyNum 7; PyNum 8; PyNum 9] in
  let r := ex_attachParameters params st in
  targetElementCount st = 2
  ∧ length params ≠ targetElementCount st
  ∧ r.1 = Returns tt
  ∧ result (nodes r.2 0) = Some (mkArray [2] [PyNum 7; PyNum 8]).
Proof. by vm_compute. Qed.

Lemma attachParameters_length_mismatch_witness :
  let st := ex_run [ex_add 0 true] in
  (ex_attachParameters [PyNum 7] st).1 = Raises CannotReshape
  ∧ (ex_attachParameters [PyNum 7; PyNum 8; PyNum 9] st).1 = Returns tt
  ∧ ex_attachParameters [PyNum 7; PyNum 8; PyNum 9] st
    = ex_attachParameters [PyNum 7; PyNum 8] st.
Proof.
  intros st.
  pose proof (attachParameters_length_mismatch (E:=NodeFailure) ex_classOf st
                [PyNum 7] ex_target_x_shape) as [Hshort _].
  pose proof (attachParameters_length_mismatch (E:=NodeFailure) ex_classOf st
                [PyNum 7; PyNum 8; PyNum 9] ex_target_x_shape) as [_ Hlong].
  split; [apply Hshort; vm_compute; lia|].
  apply Hlong. vm_compute. lia.
Defined.



Lemma unrolled_gradients_align_witness :
  let st := ex_run [ex_add 0 true] in
  let params := [PyNum 1; PyNum 2] in
  let grads := [PyNum 1; PyNum 2] in
  ex_unrollGradientParameters st = (Returns params, st)
  ∧ ex_unrollGradients st = (Returns grads, st)
  ∧ py_slice params 0 2 = np_ravel PyNone (Some ex_x)
  ∧ py_slice grads 0 2 = np_ravel PyNone (Some ex_x).
Proof.
  intros st params grads.
  assert (Hp : ex_unrollGradientParameters st = (Returns params, st))
    by reflexivity.
  assert (Hg : ex_unrollGradients st = (Returns grads, st)) by reflexivity.
  split; [exact Hp|]. split; [exact Hg|].
  destruct (unrolled_gradients_align_with_parameters PyNone ex_classOf
              ex_getValue ex_getGradient ex_toCommonDtype st params st grads
              st Hp Hg)
    as (gs & Hgs & _ & _ & _ & Halign).
  injection Hgs as <-.
  apply (Halign ltac:(by repeat constructor) 0 (Some ex_x) (Some ex_x));
    reflexivity.
Defined.

(** ** The mode controller *)

(** C3, as stated, fails when the prediction raises: the cost operation 4
    predicts the value of the Variable [y], which holds none; the
    exception leaves both nodes in evaluation mode. *)
Lemma makePredictions_raises_in_evaluation_mode :
  let st := ex_run [ex_add 3 false; CallAddOperation 4 false true false] in
  let r := ex_graph_makePredictions st in
  isinstanceCost ex_classOf (finalOperation (graph st)) = true
  ∧ r.1 = Raises (NodeRaised NotComputed)
  ∧ operations (graph st) = [3; 4]
  ∧ testing (nodes r.2 3) = true
  ∧ testing (nodes r.2 4) = true.
Proof. by vm_compute. Qed.

Lemma makePredictions_mode_flags_witness :
  let st := ex_run [ex_add 0 false; CallAddOperation 2 false true false] in
  let r := ex_graph_makePredictions st in
  isinstanceCost ex_classOf (finalOperation (graph st)) = true
  ∧ r.1 = Returns (Some ex_x)
  ∧ graph r.2 = graph st
  ∧ ∀ x, x ∈ operations (graph st) → testing (nodes r.2 x) = false.
Proof.
  intros st r.
  assert (Hcost : isinstanceCost ex_classOf (finalOperation (graph st)) = true)
    by (vm_compute; reflexivity).
  assert (Hout : r.1 = Returns (Some ex_x)) by (vm_compute; reflexivity).
  pose proof (makePredictions_mode_flags ex_classOf ex_reset
                ex_makePredictions st r.1 r.2 Hcost (surjective_pairing r))
    as [Hg Hm].
  rewrite Hout in Hm. auto.
Defined.

(** ** Forward evaluation *)

Lemma ex_reset_clears : resetClearsCache ex_classOf ex_reset.
Proof.
  intros r s s' [= <-]. split.
  - rewrite fn_lookup_insert. split; [done|]. cbn.
    by destruct (ex_classOf r).
  - intros r' Hr'. unfold insert, fn_insert. case_decide; [subst|done].
    destruct Hr' as [Hg Hv]. split; [done|]. cbn.
    by destruct (ex_classOf r').
Qed.

Lemma getValue_resets_then_evaluates_witness :
  let st := ex_run [ex_add 0 false; CallAddOperation 2 false true false] in
  finalOperation (graph st) = Some 2
  ∧ feedForward ex_classOf ex_getValue st
    = callNode (node_getValue ex_classOf ex_getValue 2) st
  ∧ (ex_graph_getValue st).1 = Returns (Some ex_x).
Proof.
  intros st.
  assert (Hfinal : finalOperation (graph st) = Some 2)
    by (vm_compute; reflexivity).
  destruct (getValue_resets_then_evaluates ex_classOf ex_reset ex_getValue
              st 2 ex_reset_clears Hfinal) as (Hff & _ & _).
  split; [exact Hfinal|]. split; [exact Hff | vm_compute; reflexivity].
Defined.

(** ** Sinks *)

Lemma ex_backReferencesConsistent : backReferencesConsistent ex_nodes.
Proof.
  intros m n.
  destruct m as [|[|[|[|[|m]]]]]; destruct n as [|[|[|[|[|n]]]]]; cbn;
    rewrite ?elem_of_cons, ?elem_of_nil; split; intros H;
    repeat (destruct H as [H|H]); try discriminate H; try done;
    auto.
Qed.

(** C5, as stated, fails when a node is inserted again: [x], then the
    operation 1 that takes [x] as input, then [x] again.  Every node is
    inserted after its inputs and every call returns, and yet [x] ends up
    among the sinks while the registered operation 1 has it as input. *)
Lemma reinserted_node_is_a_consumed_sink :
  let ins := [mkInsertion 0 false false false;
              mkInsertion 1 false false false;
              mkInsertion 0 false false false] in
  let st := ex_run (map insertionCall ins) in
  map ins_operation ins = [0; 1; 0]
  ∧ (ex_addOperation 0 false false false
       (ex_run (map insertionCall (take 2 ins)))).1 = Returns 0
  ∧ 0 ∈ endOperations (graph st)
  ∧ 1 ∈ operations (graph st)
  ∧ 0 ∈ inputs (nodes st 1).
Proof.
  cbv zeta. split; [done|]. split; [by vm_compute|].
  assert (Hends : endOperations (graph (ex_run (map insertionCall
            [mkInsertion 0 false false false; mkInsertion 1 false false false;
             mkInsertion 0 false false false]))) = [1; 0])
    by (vm_compute; reflexivity).
  assert (Hops : operations (graph (ex_run (map insertionCall
            [mkInsertion 0 false false false; mkInsertion 1 false false false;
             mkInsertion 0 false false false]))) = [0; 1; 0])
    by (vm_compute; reflexivity).
  assert (Hin : inputs (nodes (ex_run (map insertionCall
            [mkInsertion 0 false false false; mkInsertion 1 false false false;
             mkInsertion 0 false false false])) 1) = [0])
    by (vm_compute; reflexivity).
  rewrite Hends, Hops, Hin, !elem_of_cons. auto.
Qed.

Lemma reinserted_node_is_dependency_ordered :
  dependencyOrdered ex_nodes [0; 1; 0].
Proof.
  intros k r Hk i Hi.
  destruct k as [|[|[|k]]]; cbn in Hk; try discriminate Hk;
    injection Hk as <-; cbn in Hi;
    rewrite ?elem_of_cons, ?elem_of_nil in Hi;
    repeat (destruct Hi as [Hi|Hi]); try done; subst; by left.
Qed.

Lemma sinks_are_the_unconsumed_nodes_witness :
  let ins := [mkInsertion 0 true false false;
              mkInsertion 1 false false false;
              mkInsertion 2 false true false] in
  let st := ex_run (map insertionCall ins) in
  endOperations (graph st) = [1; 2]
  ∧ ∀ r, r ∈ endOperations (graph st)
         ↔ r ∈ operations (graph st)
           ∧ ∀ m, m ∈ operations (graph st) → r ∉ inputs (nodes st m).
Proof.
  intros ins st. split; [vm_compute; reflexivity|].
  apply (sinks_are_the_unconsumed_nodes PyNone ex_classOf ex_reset ex_getValue
           ex_getGradient ex_makePredictions ex_toCommonDtype false ex_nodes
           true ins ex_backReferencesConsistent) with (n := 3).
  - change (NoDup [0; 1; 2]). repeat constructor;
      rewrite ?elem_of_cons, ?elem_of_nil; intros H;
      repeat (destruct H as [H|H]); done.
  - intros k r Hk i Hi.
    destruct k as [|[|[|k]]]; cbn in Hk; try discriminate Hk;
      injection Hk as <-; cbn in Hi;
      rewrite ?elem_of_cons, ?elem_of_nil in Hi;
      repeat (destruct Hi as [Hi|Hi]); try done; subst; by left.
Defined.

(** ** Identifiers *)

(** C6, as stated, fails when a node is inserted again: the second
    insertion of [x] overwrites the identifier the first one assigned, and
    position 0 of the node sequence does not hold identifier 0. *)
Lemma reinsertion_changes_identifier :
  let st1 := ex_run [ex_add 0 false] in
  let st2 := ex_run [ex_add 0 false; ex_add 0 false] in
  referenceNumber (nodes st1 0) = Some 0
  ∧ operations (graph st2) !! 0 = Some 0
  ∧ referenceNumber (nodes st2 0) = Some 1.
Proof. by vm_compute. Qed.

Lemma ex_reset_sameIdentifiers r :
  nodeMethodWithin sameIdentifiers (ex_reset r).
Proof.
  intros s r'. cbn. unfold insert, fn_insert. by case_decide; subst.
Qed.

Lemma ex_getValue_sameIdentifiers r :
  nodeMethodWithin sameIdentifiers (ex_getValue r).
Proof.
  intros s r'. unfold ex_getValue.
  destruct (result (s r)); [done|].
  destruct (ex_firstInput r s); [|done].
  cbn. unfold insert, fn_insert. by case_decide; subst.
Qed.

Lemma ex_getGradient_sameIdentifiers r :
  nodeMethodWithin sameIdentifiers (ex_getGradient r).
Proof. intros s r'. unfold ex_getGradient. by destruct (result (s r)). Qed.

Lemma ex_makePredictions_sameIdentifiers r :
  nodeMethodWithin sameIdentifiers (ex_makePredictions r).
Proof.
  intros s r'. unfold ex_makePredictions. by destruct (ex_firstInput r s).
Qed.

Lemma identifiers_follow_insertion_order_witness :
  let calls := [ex_add 0 true; ex_add 1 false; CallGetValue;
                CallAddOperation 2 false true false; CallMakePredictions] in
  let st := ex_run calls in
  operations (graph st) = [0; 1; 2]
  ∧ nOperations (graph st) = 3
  ∧ referenceNumber (nodes st 0) = Some 0
  ∧ referenceNumber (nodes st 1) = Some 1
  ∧ referenceNumber (nodes st 2) = Some 2.
Proof.
  intros calls st.
  destruct (identifiers_follow_insertion_order PyNone ex_classOf ex_reset
              ex_getValue ex_getGradient ex_makePredictions ex_toCommonDtype
              false ex_nodes true calls
              ex_reset_sameIdentifiers ex_getValue_sameIdentifiers
              ex_getGradient_sameIdentifiers
              ex_makePredictions_sameIdentifiers)
    as (Hops & Hn & _ & _ & Hids).
  split; [exact Hops|]. split; [exact Hn|].
  assert (Hnd : NoDup (flat_map insertedBy calls)).
  { change (NoDup [0; 1; 2]). repeat constructor;
      rewrite ?elem_of_cons, ?elem_of_nil; intros H;
      repeat (destruct H as [H|H]); done. }
  split; [|split].
  - by apply (Hids Hnd 0 0).
  - by apply (Hids Hnd 1 1).
  - by apply (Hids Hnd 2 2).
Defined.

(** ** The final reference *)

Lemma no_final_operation_no_value_witness :
  let calls := [ex_add 0 true; ex_add 1 false; CallResetAll] in
  let st := ex_run calls in
  forallb marksNoFinal calls = true
  ∧ finalOperation (graph st) = None
  ∧ (feedForward ex_classOf ex_getValue st).1 = Raises NoneHasNoAttribute
  ∧ (∃ e, (ex_graph_getValue st).1 = Raises e)
  ∧ (ex_graph_makePredictions st).1 = Raises FinalNodeRequiredForPredictions.
Proof.
  intros calls st. split; [reflexivity|].
  apply (no_final_operation_no_value PyNone ex_classOf ex_reset ex_getValue
           ex_getGradient ex_makePredictions ex_toCommonDtype false ex_nodes
           true calls).
  reflexivity.
Defined.

(** * Further properties of the graph *)

Section Coverage.
Context {A E : Type}.
Context (pyNone : A).
Context (classOf : ref → NodeKind).
Context (node_reset : ref → NodeMethod A E unit).
Context (op_getValue : ref → NodeMethod A E (option (ndarray A))).
Context (node_getGradient : ref → NodeMethod A E (option (ndarray A))).
Context (cost_makePredictions : ref → NodeMethod A E (option (ndarray A))).
Context (toCommonDtype : list A → list A → A → A).
Context (warningsAreErrors : bool).

Local Abbreviation addOperation :=
  (addOperation (A:=A) (E:=E) classOf warningsAreErrors).
Local Abbreviation attachParameters := (attachParameters (A:=A) (E:=E) classOf).
Local Abbreviation unrollGradientParameters :=
  (unrollGradientParameters (E:=E) pyNone classOf op_getValue toCommonDtype).
Local Abbreviation unrollGradients :=
  (unrollGradients (E:=E) pyNone classOf node_getGradient toCommonDtype).
Local Abbreviation feedForward := (feedForward classOf op_getValue).
Local Abbreviation resetAll := (resetAll node_reset).
Local Abbreviation getValue := (getValue classOf node_reset op_getValue).
Local Abbreviation feedBackward := (feedBackward node_getGradient).
Local Abbreviation getGradients := (getGradients node_reset node_getGradient).
Local Abbreviation makePredictions :=
  (makePredictions classOf node_reset cost_makePredictions).
Local Abbreviation exec :=
  (exec pyNone classOf node_reset op_getValue node_getGradient
        cost_makePredictions toCommonDtype warningsAreErrors).
Local Abbreviation run :=
  (run pyNone classOf node_reset op_getValue node_getGradient
       cost_makePredictions toCommonDtype warningsAreErrors).

Ltac mstep :=
  repeat (progress (rewrite ?bind_run;
                    cbn [mret M_ret ret raise getGraph getNodes modifyGraph
                         modifyNode warn when nodes graph warned])).

(** ** What [addOperation] returns, raises and assigns *)

(** [addOperation] ends in one of four ways, decided by the flags, the
    class of the node, the [printWarnings] setting and the warnings
    filter: the gradient-target check comes first; then a final node that
    is not a cost operation is warned about, which raises when the filter
    turns warnings into errors; the feeder check comes last; the sink
    loop never raises. *)
Theorem addOperation_outcome operation doGradient asFinal asFeeder st :
  (addOperation operation doGradient asFinal asFeeder st).1
  = if doGradient && negb (isVariable (classOf operation))
    then Raises InvalidGradientTarget
    else if asFinal && negb (isCostOperation (classOf operation))
            && printWarnings (graph st) && warningsAreErrors
         then Raises UserWarningRaised
         else if asFeeder && negb (isVariable (classOf operation))
              then Raises InvalidFeeder
              else Returns operation.
Proof.
  rewrite addOperation_register.
  destruct doGradient, asFinal, asFeeder, warningsAreErrors,
    (classOf operation), (printWarnings (graph st)) eqn:Hw;
    mstep; cbn; rewrite ?Hw; cbn; mstep; reflexivity.
Qed.

(** The references and the warnings an [addOperation] call leaves behind,
    whether it returns or raises. *)
Lemma addOperation_references operation doGradient asFinal asFeeder st :
  let st' := (addOperation operation doGradient asFinal asFeeder st).2 in
  printWarnings (graph st') = printWarnings (graph st)
  ∧ (finalOperation (graph st') = finalOperation (graph st)
     ∨ finalOperation (graph st') = Some operation)
  ∧ (feederOperation (graph st') = feederOperation (graph st)
     ∨ feederOperation (graph st') = Some operation
       ∧ classOf operation = KVariable)
  ∧ (warned st' = warned st
     ∨ warned st' = warned st ++ [operation]
       ∧ classOf operation ≠ KCostOperation
       ∧ printWarnings (graph st) = true).
Proof.
  rewrite addOperation_register.
  destruct doGradient, asFinal, asFeeder, warningsAreErrors,
    (classOf operation) eqn:Hk, (printWarnings (graph st)) eqn:Hw;
    mstep; cbn; rewrite ?Hw; cbn; mstep; cbn;
    repeat split; try done; first [by left | by right].
Qed.

(** When [addOperation] returns, it returns the node it was given; the
    node joined the gradient targets exactly if [doGradient] was set, it
    is the final node exactly if [finalOperation] was set (whatever its
    class) and the feeder exactly if [feederOperation] was set, the latest
    call overwriting the reference; a warning was emitted exactly for a
    final node that is not a cost operation, warnings being on. *)
Theorem addOperation_returns operation doGradient asFinal asFeeder st x st' :
  addOperation operation doGradient asFinal asFeeder st = (Returns x, st') →
  x = operation
  ∧ (doGradient || asFeeder = true → classOf operation = KVariable)
  ∧ gradientOps (graph st')
    = (if doGradient then gradientOps (graph st) ++ [operation]
       else gradientOps (graph st))
  ∧ finalOperation (graph st')
    = (if asFinal then Some operation else finalOperation (graph st))
  ∧ feederOperation (graph st')
    = (if asFeeder then Some operation else feederOperation (graph st))
  ∧ warned st'
    = (if asFinal && negb (isCostOperation (classOf operation))
          && printWarnings (graph st)
       then warned st ++ [operation] else warned st).
Proof.
  rewrite addOperation_register.
  destruct doGradient, asFinal, asFeeder, warningsAreErrors,
    (classOf operation) eqn:Hk, (printWarnings (graph st)) eqn:Hw;
    mstep; cbn; rewrite ?Hw; cbn; mstep; cbn;
    intros [= <- <-]; cbn; rewrite ?Hw; done.
Qed.

(** A node that is not a Variable cannot be the feeder: a call that
    marks it as feeder (and not as gradient target) raises, and the feeder
    and the gradient targets stay as they were.  The check comes last: the
    node has been registered by then.  When the node is marked as final
    too, it has already become the final node by the time InvalidFeeder is
    raised, unless the warning about a final node that is not a cost
    operation was raised as an error: then that is the exception, and the
    final reference is as it was. *)
Theorem addOperation_invalid_feeder operation asFinal st :
  classOf operation ≠ KVariable →
  let warningRaised :=
    asFinal && negb (isCostOperation (classOf operation))
    && printWarnings (graph st) && warningsAreErrors in
  ∃ st',
    addOperation operation false asFinal true st
      = (Raises (if warningRaised then UserWarningRaised else InvalidFeeder),
         st')
    ∧ feederOperation (graph st') = feederOperation (graph st)
    ∧ gradientOps (graph st') = gradientOps (graph st)
    ∧ operations (graph st') = operations (graph st) ++ [operation]
    ∧ nOperations (graph st') = nOperations (graph st) + 1
    ∧ referenceNumber (nodes st' operation) = Some (nOperations (graph st))
    ∧ finalOperation (graph st')
      = (if asFinal && negb warningRaised then Some operation
         else finalOperation (graph st)).
Proof.
  intros Hk. rewrite addOperation_register.
  destruct asFinal, warningsAreErrors, (classOf operation) eqn:Hc,
    (printWarnings (graph st)) eqn:Hw; try done;
    mstep; cbn; rewrite ?Hw; cbn; mstep; cbn;
    (eexists; split; [reflexivity|]); cbn;
    rewrite fn_lookup_insert; done.
Qed.

(** ** What only [addOperation] changes *)

Global Instance sameGraphAndWarnings_preorder :
  PreOrder (@sameGraphAndWarnings A).
Proof.
  split; [by intros st|]. intros st1 st2 st3 [H1 H2] [H3 H4].
  split; congruence.
Qed.

Lemma callNode_sameGraphAndWarnings {X} (m : NodeMethod A E X) :
  staysWithin sameGraphAndWarnings (callNode m).
Proof.
  intros st. unfold callNode. by destruct (m (nodes st)) as [[e|x] s].
Qed.

Lemma modifyNode_sameGraphAndWarnings r (f : Node A → Node A) :
  staysWithin (E:=E) sameGraphAndWarnings (modifyNode r f).
Proof. by intros st. Qed.

Ltac unchanged_step :=
  lazymatch goal with
  | |- staysWithin _ (mret _) => apply within_ret
  | |- staysWithin _ (raise _) => apply within_raise
  | |- staysWithin _ getGraph => apply within_getGraph
  | |- staysWithin _ getNodes => apply within_getNodes
  | |- staysWithin _ (_ ≫= _) => apply within_bind
  | |- staysWithin _ (when _ _) => apply within_when
  | |- staysWithin _ (forEach _ _) => apply within_forEach
  | |- staysWithin _ (forFold _ _ _) => apply within_forFold
  | |- staysWithin _ (if _ then _ else _) => apply within_if
  | |- staysWithin _ (match _ with Some _ => _ | None => _ end) =>
      apply within_match_option
  | |- staysWithin _ (callNode _) => apply callNode_sameGraphAndWarnings
  | |- staysWithin _ (modifyNode _ _) => apply modifyNode_sameGraphAndWarnings
  | |- staysWithin _ unrollGradientParameters =>
      unfold unrollGradientParameters, unrollGradientParameters_step
  | |- staysWithin _ (attachParameters _) =>
      unfold attachParameters, attachParameters_step, Variable_assignData
  | |- staysWithin _ feedForward => unfold feedForward
  | |- staysWithin _ getValue => unfold getValue
  | |- staysWithin _ feedBackward => unfold feedBackward
  | |- staysWithin _ getGradients => unfold getGradients
  | |- staysWithin _ makePredictions => unfold makePredictions
  | |- staysWithin _ unrollGradients =>
      unfold unrollGradients, unrollGradients_step
  | |- staysWithin _ resetAll => unfold resetAll
  | |- PreOrder _ => apply _
  | |- ∀ _, _ => intros
  end.

Ltac unchanged := cbv zeta; repeat unchanged_step.

Lemma exec_sameGraphAndWarnings (c : Call) st :
  insertedBy c = [] → sameGraphAndWarnings st (exec c st).
Proof.
  destruct c; intros Hc; try discriminate Hc; cbn [exec];
    match goal with
    | |- sameGraphAndWarnings st (?m st).2 =>
        cut (staysWithin sameGraphAndWarnings m); [by intros H|]
    end;
    unchanged.
Qed.


(** ** Invariants of every program *)

(** A property of the graph object and the warnings holds of every
    program once it holds of the empty graph and every [addOperation] call
    keeps it. *)
Lemma run_graph_invariant (I : basicGraph → list ref → Prop) s pw calls :
  I (basicGraph_init pw) [] →
  (∀ st operation dg fin fd,
     I (graph st) (warned st) →
     I (graph (addOperation operation dg fin fd st).2)
       (warned (addOperation operation dg fin fd st).2)) →
  I (graph (run s pw calls)) (warned (run s pw calls)).
Proof.
  intros Hinit Hadd. induction calls as [|c calls IH] using rev_ind; [done|].
  rewrite run_snoc. destruct (insertedBy c) eqn:Hc.
  - destruct (exec_sameGraphAndWarnings c (run s pw calls) Hc) as [-> ->].
    done.
  - destruct c as [operation dg fin fd| | | | | | | | |];
      try discriminate Hc.
    cbn [exec]. by apply Hadd.
Qed.

(** The final node and the feeder, when there is one, are registered
    nodes, and the feeder is a Variable (I4), in every program. *)
Theorem final_and_feeder_are_registered s pw calls :
  let g := graph (run s pw calls) in
  (∀ r, finalOperation g = Some r → r ∈ operations g)
  ∧ (∀ r, feederOperation g = Some r →
          r ∈ operations g ∧ classOf r = KVariable).
Proof.
  apply (run_graph_invariant
           (λ g _, (∀ r, finalOperation g = Some r → r ∈ operations g)
                   ∧ (∀ r, feederOperation g = Some r →
                           r ∈ operations g ∧ classOf r = KVariable)));
    [done|].
  intros st operation dg fin fd [Hfinal Hfeeder].
  destruct (addOperation_leaves (E:=E) classOf warningsAreErrors operation dg fin fd st)
    as (_ & -> & _).
  destruct (addOperation_references operation dg fin fd st)
    as (_ & Hf & Hd & _).
  split; intros r Hr; rewrite elem_of_app, list_elem_of_singleton.
  - destruct Hf as [Hf | Hf]; rewrite Hf in Hr.
    + left. by apply Hfinal.
    + right. by injection Hr as <-.
  - destruct Hd as [Hd | [Hd Hk]]; rewrite Hd in Hr.
    + destruct (Hfeeder r Hr). by split; [left|].
    + injection Hr as <-. by split; [right|].
Qed.

(** The gradient targets are registered nodes, listed in the order in
    which they were inserted: the layout of the codec follows insertion
    order. *)
Theorem gradient_targets_in_insertion_order s pw calls :
  gradientOps (graph (run s pw calls))
    `sublist_of` operations (graph (run s pw calls)).
Proof.
  apply (run_graph_invariant
           (λ g _, gradientOps g `sublist_of` operations g)); [done|].
  intros st operation dg fin fd Hsub.
  destruct (addOperation_leaves (E:=E) classOf warningsAreErrors operation dg fin fd st)
    as (_ & -> & _ & _ & Hg & _).
  destruct Hg as [-> | [_ ->]].
  - by apply sublist_inserts_r.
  - by apply sublist_app.
Qed.

(** The sinks are registered nodes, listed in the order in which they
    were inserted; so a node that was inserted once is a sink at most
    once. *)
Theorem sinks_in_insertion_order s pw calls :
  endOperations (graph (run s pw calls))
    `sublist_of` operations (graph (run s pw calls)).
Proof.
  apply (run_graph_invariant
           (λ g _, endOperations g `sublist_of` operations g)); [done|].
  intros st operation dg fin fd Hsub.
  destruct (addOperation_leaves (E:=E) classOf warningsAreErrors operation dg fin fd st)
    as (_ & -> & _ & -> & _).
  unfold sinksAfter. etrans; [apply sublist_filter|].
  by apply sublist_app.
Qed.

(** Warnings are only ever about registered nodes that are not cost
    operations, and a graph built with [printWarnings=False] never emits
    one; no call changes the [printWarnings] setting. *)
Theorem warnings_are_about_non_cost_final_nodes s pw calls :
  let st := run s pw calls in
  printWarnings (graph st) = pw
  ∧ (pw = false → warned st = [])
  ∧ (∀ r, r ∈ warned st →
          classOf r ≠ KCostOperation ∧ r ∈ operations (graph st)).
Proof.
  apply (run_graph_invariant
           (λ g w, printWarnings g = pw
                   ∧ (pw = false → w = [])
                   ∧ (∀ r, r ∈ w →
                           classOf r ≠ KCostOperation ∧ r ∈ operations g))).
  { split; [done|]. split; [done|]. by intros r ?%elem_of_nil. }
  intros st operation dg fin fd (Hpw & Hoff & Hw).
  destruct (addOperation_leaves (E:=E) classOf warningsAreErrors operation dg fin fd st)
    as (_ & -> & _).
  destruct (addOperation_references operation dg fin fd st)
    as (-> & _ & _ & Hwarned).
  split; [done|].
  destruct Hwarned as [-> | (-> & Hk & Hon)].
  - split; [done|]. intros r Hr. destruct (Hw r Hr).
    split; [done|]. apply elem_of_app. by left.
  - split; [congruence|]. intros r [Hr | Hr]%elem_of_app.
    + destruct (Hw r Hr). split; [done|]. apply elem_of_app. by left.
    + apply list_elem_of_singleton in Hr as ->.
      split; [done|]. apply elem_of_app. right. by left.
Qed.

(** Iterating over the graph yields the nodes of the [addOperation]
    calls made so far, in call order, one entry per call (also for a call
    that raised and for a node inserted again), and [nOperations] is
    their number. *)
Theorem iteration_yields_the_insertions s pw calls :
  Graph_iter (run s pw calls) = flat_map insertedBy calls
  ∧ nOperations (graph (run s pw calls)) = length (Graph_iter (run s pw calls)).
Proof.
  unfold Graph_iter.
  destruct (run_operations pyNone classOf node_reset op_getValue
              node_getGradient cost_makePredictions toCommonDtype
              warningsAreErrors s pw calls) as [-> ->].
  done.
Qed.

(** ** More on the parameter codec *)

(** The loop of [attachParameters] writes to the targets it goes over and
    to nothing else, also when it raises. *)
Lemma attach_loop_frame params ops pointer (st : State A) :
  let st' := (forFold (E:=E) ops pointer
                (attachParameters_step classOf params) st).2 in
  graph st' = graph st ∧ ∀ r, r ∉ ops → nodes st' r = nodes st r.
Proof.
  revert pointer st. induction ops as [|op ops IH]; intros pointer st; [done|].
  cbn [forFold]. rewrite bind_run.
  destruct (classOf op) eqn:Hk.
  - rewrite attachParameters_step_run by done.
    destruct (np_reshape _ _) as [data|]; [|done].
    destruct (IH (pointer + np_size (result (nodes st op)))
                 (mkState (<[op := set_data data (nodes st op)]> (nodes st))
                          (graph st) (warned st))) as [Hg Hn].
    split; [done|]. intros r [Hne Hr]%not_elem_of_cons.
    rewrite Hn by done. cbn [nodes]. by rewrite fn_lookup_insert_ne.
  - unfold attachParameters_step. by rewrite Hk.
  - unfold attachParameters_step. by rewrite Hk.
Qed.

(** [attachParameters] writes to the gradient targets only: the graph
    object and every node that is not a gradient target are left as they
    were, whether the call returns or raises. *)
Theorem attachParameters_writes_targets_only params st :
  let st' := (attachParameters params st).2 in
  graph st' = graph st
  ∧ ∀ r, r ∉ gradientOps (graph st) → nodes st' r = nodes st r.
Proof.
  unfold attachParameters. mstep.
  pose proof (attach_loop_frame params (gradientOps (graph st)) 0 st) as H.
  by destruct (forFold _ _ _ st) as [[p|e] st1].
Qed.

(** On distinct targets, the loop of [attachParameters] leaves in the
    targets, read in list order, the entries it went over. *)
Lemma attach_loop_values params ops pointer (st : State A) :
  NoDup ops →
  (∀ r, r ∈ ops → classOf r = KVariable ∧ shapeMatchesResult (nodes st r)) →
  pointer + sum_list (map (λ r, np_size (result (nodes st r))) ops)
    ≤ length params →
  ∃ p' st',
    forFold (E:=E) ops pointer (attachParameters_step classOf params) st
      = (Returns p', st')
    ∧ concat (map (λ r, np_ravel pyNone (result (nodes st' r))) ops)
      = take (sum_list (map (λ r, np_size (result (nodes st r))) ops))
             (drop pointer params).
Proof.
  revert pointer st. induction ops as [|op ops IH]; intros pointer st Hnd Hinv Hlen.
  - by exists pointer, st.
  - apply NoDup_cons in Hnd as [Hfresh Hnd].
    destruct (Hinv op ltac:(left)) as [Hk Hshape].
    pose proof Hshape as Hn. unfold shapeMatchesResult in Hn.
    cbn [forFold map sum_list sum_list_with id] in *. rewrite bind_run.
    rewrite attachParameters_step_run by done.
    unfold np_reshape.
    rewrite decide_True by (rewrite py_slice_length, <- Hn; lia).
    set (n := np_size (result (nodes st op))) in *.
    set (st1 := mkState _ _ _).
    assert (Hsizes : map (λ r, np_size (result (nodes st1 r))) ops
                     = map (λ r, np_size (result (nodes st r))) ops).
    { apply map_ext. intros r. by apply assign_keeps_sizes. }
    pose proof (attach_loop_frame params ops (pointer + n) st1) as [_ Hframe].
    destruct (IH (pointer + n) st1) as (p' & st' & Hrun & Hvalues).
    + done.
    + intros r Hr. destruct (Hinv r ltac:(by right)) as [Hkr Hsr].
      split; [done|]. unfold shapeMatchesResult, st1. cbn [nodes].
      destruct (assign_keeps_sizes (nodes st) op (py_slice params pointer n) r
                  Hshape) as [-> ->].
      done.
    + rewrite Hsizes. lia.
    + exists p', st'. split; [done|].
      rewrite Hrun in Hframe. cbn [snd] in Hframe.
      rewrite (Hframe op Hfresh). unfold st1 at 1. cbn [nodes].
      rewrite fn_lookup_insert.
      cbn [set_data result np_ravel arr_data concat].
      rewrite Hvalues, Hsizes. unfold py_slice.
      by rewrite <- drop_drop, take_take_drop.
Qed.

(** Attaching a vector and unrolling gives the vector back: when the
    gradient targets are distinct Variables whose shape is that of their
    data, the vector has at least as many entries as they have elements,
    and its entries are stored as they are by [np.hstack] (a float64
    vector), [attachParameters] returns and [unrollGradientParameters]
    then returns the entries that were attached (the whole vector when
    its length is the element count). *)
Theorem unroll_after_attach params st :
  NoDup (gradientOps (graph st)) →
  (∀ r, r ∈ gradientOps (graph st) →
        classOf r = KVariable ∧ shapeMatchesResult (nodes st r)) →
  targetElementCount st ≤ length params →
  (∀ acc new x, x ∈ params → toCommonDtype acc new x = x) →
  ∃ st',
    attachParameters params st = (Returns tt, st')
    ∧ unrollGradientParameters st'
      = (Returns (take (targetElementCount st) params), st').
Proof.
  intros Hnd Hinv Hlen Hexact. unfold targetElementCount in *.
  destruct (attach_loop_values params (gradientOps (graph st)) 0 st Hnd Hinv
              Hlen) as (p' & st' & Hrun & Hvalues).
  pose proof (attach_loop_frame params (gradientOps (graph st)) 0 st)
    as [Hg _].
  rewrite Hrun in Hg. cbn [snd] in Hg. rewrite drop_0 in Hvalues.
  exists st'. split.
  - unfold attachParameters. mstep. rewrite ?bind_run. by rewrite Hrun.
  - unfold unrollGradientParameters. mstep. rewrite Hg.
    rewrite unroll_loop by (intros r Hr; by apply Hinv).
    rewrite hstackAll_exact;
      [by rewrite Hvalues | by intros ? ? ? ?%elem_of_nil |].
    intros seg Hseg acc new x Hx. apply Hexact.
    apply (subseteq_take (sum_list (map (λ r, np_size (result (nodes st r)))
                                        (gradientOps (graph st))))).
    rewrite <- Hvalues. apply list_elem_of_In, in_concat.
    exists seg. by rewrite <- !list_elem_of_In.
Qed.

(** The unrolled parameter vector has exactly as many entries as
    [attachParameters] consumes: when every gradient target is a Variable
    holding a value, [unrollGradientParameters] returns a vector whose
    length is the sum of the element counts of the targets, and changes
    nothing. *)
Theorem unrolled_parameters_length st :
  (∀ r, r ∈ gradientOps (graph st) →
        classOf r = KVariable ∧ holdsValue (nodes st r)) →
  ∃ params,
    unrollGradientParameters st = (Returns params, st)
    ∧ length params = targetElementCount st.
Proof.
  intros Hinv. eexists. split.
  - unfold unrollGradientParameters. mstep.
    apply unroll_loop. intros r Hr. by apply Hinv.
  - rewrite hstackAll_length. cbn [length Nat.add].
    unfold targetElementCount. rewrite map_map. f_equal.
    apply map_ext_in. intros r Hr%list_elem_of_In.
    destruct (Hinv r Hr) as [_ (a & -> & _ & Hwf)]. exact Hwf.
Qed.

(** ** Backward evaluation *)

(** The loops of [unrollGradients] and [feedBackward] ask the same nodes
    for their gradient in the same order. *)
Lemma unrollGradients_feedBackward_loop ops
    (triples : list (option nat * string * option (ndarray A))) (st : State A) :
  (∀ r, r ∈ ops → classOf r = KVariable) →
  forFold ops
    (hstackAll toCommonDtype [] (map (λ t, np_ravel pyNone t.2) triples))
    (unrollGradients_step (E:=E) pyNone classOf node_getGradient
                          toCommonDtype) st
  = match forFold ops triples
            (λ gradients op,
               s ← getNodes;
               grad ← callNode (node_getGradient op);
               mret (gradients
                       ++ [(referenceNumber (s op), name (s op), grad)])) st
    with
    | (Returns result, st') =>
        (Returns (hstackAll toCommonDtype []
                    (map (λ t, np_ravel pyNone t.2) result)), st')
    | (Raises e, st') => (Raises e, st')
    end.
Proof.
  revert triples st. induction ops as [|op ops IH]; intros triples st Hk;
    [done|].
  cbn [forFold]. rewrite !bind_run. cbn [getNodes].
  unfold unrollGradients_step at 1. rewrite (Hk op) by left.
  cbn [isVariable negb]. rewrite !bind_run. unfold callNode.
  destruct (node_getGradient op (nodes st)) as [[e|g] s1]; [done|].
  mstep. rewrite <- IH by (intros r Hr; apply Hk; by right).
  f_equal. rewrite map_app. cbn [map]. by rewrite hstackAll_snoc.
Qed.

(** [unrollGradients] is [feedBackward] flattened: on every graph a
    program can build, it returns the flattened gradients [feedBackward]
    returns, stacked in order onto the empty vector, raises what
    [feedBackward] raises, and leaves the same state.  Like
    [feedBackward], and unlike [getGradients], it does not reset the
    nodes first. *)
Theorem unrollGradients_flattens_feedBackward s pw calls :
  let st := run s pw calls in
  unrollGradients st
  = match feedBackward st with
    | (Returns triples, st') =>
        (Returns (hstackAll toCommonDtype []
                    (map (λ t, np_ravel pyNone t.2) triples)), st')
    | (Raises e, st') => (Raises e, st')
    end.
Proof.
  intros st. unfold unrollGradients, feedBackward. mstep.
  apply (unrollGradients_feedBackward_loop _ []).
  apply (run_gradientTargetsAreVariables pyNone classOf node_reset op_getValue
           node_getGradient cost_makePredictions toCommonDtype
           warningsAreErrors s pw calls).
Qed.

Lemma feedBackward_loop_identifiers ops
    (triples : list (option nat * string * option (ndarray A)))
    (st0 st : State A) result st' :
  (∀ r, nodeMethodWithin sameIdentifiers (node_getGradient r)) →
  sameIdentifiers (nodes st0) (nodes st) →
  forFold ops triples
    (λ gradients op,
       s ← getNodes;
       grad ← callNode (node_getGradient op);
       mret (gradients ++ [(referenceNumber (s op), name (s op), grad)])) st
  = (Returns result, st') →
  map (λ t, t.1.1) result
  = map (λ t, t.1.1) triples ++ map (λ r, referenceNumber (nodes st0 r)) ops.
Proof.
  intros Hgrad. revert triples st.
  induction ops as [|op ops IH]; intros triples st Hst.
  - cbn. intros [= <- <-]. by rewrite app_nil_r.
  - cbn [forFold]. rewrite !bind_run. cbn [getNodes]. rewrite bind_run.
    unfold callNode. pose proof (Hgrad op (nodes st)) as Hop.
    destruct (node_getGradient op (nodes st)) as [[e|g] s1]; [done|].
    mstep. intros Hrun. apply IH in Hrun.
    + rewrite Hrun, map_app. cbn [map fst]. rewrite (Hst op).
      by rewrite <- (assoc_L (++)).
    + cbn [nodes snd] in *. intros r. by rewrite Hop, Hst.
Qed.

(** [feedBackward] returns one triple per gradient target, in target
    order, and the identifier in each triple is the identifier of its
    target (the node method [getGradient] not changing identifiers). *)
Theorem feedBackward_triples st triples st' :
  (∀ r, nodeMethodWithin sameIdentifiers (node_getGradient r)) →
  feedBackward st = (Returns triples, st') →
  map (λ t, t.1.1) triples
  = map (λ r, referenceNumber (nodes st r)) (gradientOps (graph st)).
Proof.
  intros Hgrad. unfold feedBackward. mstep. intros Hrun.
  by apply (feedBackward_loop_identifiers _ [] st) in Hrun.
Qed.

(** ** More on the mode controller *)

(** When [makePredictions] returns, what it returns is the prediction of
    the final node, a cost operation, asked for after every registered
    node was put in evaluation mode and reset: at that moment every
    registered node has [testing = True] and cleared caches ([reset]
    clearing the caches of its node and not writing the mode flag). *)
Theorem makePredictions_predicts_in_evaluation_mode st pred st' :
  (∀ r, nodeMethodWithin sameModeFlags (node_reset r)) →
  resetClearsCache classOf node_reset →
  makePredictions st = (Returns pred, st') →
  ∃ final s s1,
    finalOperation (graph st) = Some final
    ∧ classOf final = KCostOperation
    ∧ cost_makePredictions final s = (inr pred, s1)
    ∧ (∀ r, r ∈ operations (graph st) →
            testing (s r) = true ∧ cacheCleared classOf r (s r))
    ∧ (∀ r, r ∉ operations (graph st) → nodes st' r = s1 r).
Proof.
  intros Hflags Hclears. unfold makePredictions. mstep.
  destruct (finalOperation (graph st)) as [final|] eqn:Hfin; [|done].
  cbn [isinstanceCost].
  destruct (classOf final) eqn:Hk; try done. cbn [isCostOperation negb].
  rewrite bind_run.
  destruct (mode_loop (E:=E) true (operations (graph st)) st)
    as (st1 & -> & Hg1 & Hn1).
  rewrite bind_run.
  pose proof (resetAll_within node_reset sameModeFlags Hflags st1)
    as [Hsame Hg2].
  pose proof (reset_loop_clears classOf node_reset (operations (graph st1))
                st1) as Hloop.
  unfold resetAll in *. rewrite bind_run in *. cbn [getGraph] in *.
  destruct (forEach _ _ st1) as [[[]|e] st2]; [|done]. cbn [snd] in *.
  rewrite bind_run. unfold callNode at 1.
  destruct (cost_makePredictions final (nodes st2)) as [[e|p] s3] eqn:Hp;
    [done|].
  rewrite bind_run.
  destruct (mode_loop (E:=E) false (operations (graph st))
              (mkState s3 (graph st2) (warned st2)))
    as (st4 & -> & Hg4 & Hn4).
  mstep. intros [= <- <-].
  exists final, (nodes st2), s3. repeat split; try done.
  - rewrite Hsame, Hn1. by rewrite decide_True.
  - apply (Hloop st2 Hclears eq_refl). left. by rewrite Hg1.
  - apply (Hloop st2 Hclears eq_refl). left. by rewrite Hg1.
  - intros r Hr. rewrite Hn4. by rewrite decide_False.
Qed.

(** ** The sink update of one insertion *)

(** One insertion updates the sinks as follows, the back-references of
    the nodes mirroring their inputs: the sinks after the call are the
    inserted node and the sinks from before, without those that the
    inserted node has among its inputs; the loop removes every occurrence
    of such a sink and [list.remove] never fails. *)
Theorem addOperation_sinks operation doGradient asFinal asFeeder st :
  backReferencesConsistent (nodes st) →
  let st' := (addOperation operation doGradient asFinal asFeeder st).2 in
  ∀ r, r ∈ endOperations (graph st')
       ↔ (r ∈ endOperations (graph st) ∨ r = operation)
         ∧ r ∉ inputs (nodes st operation).
Proof.
  intros Hback st' r. unfold st'.
  destruct (addOperation_leaves (E:=E) classOf warningsAreErrors operation doGradient asFinal
              asFeeder st) as (_ & _ & _ & -> & _).
  unfold sinksAfter.
  rewrite list_elem_of_filter, elem_of_app, list_elem_of_singleton.
  rewrite (Hback r operation). split.
  - by intros [Hin Hr].
  - by intros [Hr Hin].
Qed.

End Coverage.

(** * The further properties on the example nodes *)

Lemma addOperation_returns_witness :
  let r := ex_addOperation 0 true true true (ex_run []) in
  r.1 = Returns 0
  ∧ gradientOps (graph r.2) = [0]
  ∧ finalOperation (graph r.2) = Some 0
  ∧ feederOperation (graph r.2) = Some 0
  ∧ warned r.2 = [0].
Proof.
  intros r.
  assert (Hout : r.1 = Returns 0) by (vm_compute; reflexivity).
  assert (Hrun : ex_addOperation 0 true true true (ex_run [])
                 = (Returns 0, r.2)).
  { rewrite <- Hout. apply surjective_pairing. }
  destruct (addOperation_returns ex_classOf false 0 true true true
              (ex_run []) 0 r.2 Hrun) as (_ & _ & Hg & Hf & Hd & Hw).
  split; [exact Hout|]. split; [exact Hg|]. split; [exact Hf|].
  split; [exact Hd | exact Hw].
Defined.

Lemma addOperation_invalid_feeder_witness :
  let st := ex_run [ex_add 0 false] in
  ex_classOf 1 ≠ KVariable
  ∧ (∃ st',
       addOperation (E:=NodeFailure) ex_classOf false 1 false true true st
         = (Raises InvalidFeeder, st')
       ∧ feederOperation (graph st') = None
       ∧ operations (graph st') = [0; 1]
       ∧ finalOperation (graph st') = Some 1)
  ∧ (∃ st',
       addOperation (E:=NodeFailure) ex_classOf true 1 false true true st
         = (Raises UserWarningRaised, st')
       ∧ feederOperation (graph st') = None
       ∧ operations (graph st') = [0; 1]
       ∧ finalOperation (graph st') = None).
Proof.
  intros st. split; [done|]. split.
  - destruct (addOperation_invalid_feeder (E:=NodeFailure) ex_classOf false 1
                true st ltac:(done))
      as (st' & Hrun & Hfeeder & _ & Hops & _ & _ & Hfinal).
    exists st'. split; [exact Hrun|]. split; [exact Hfeeder|].
    split; [exact Hops | exact Hfinal].
  - destruct (addOperation_invalid_feeder (E:=NodeFailure) ex_classOf true 1
                true st ltac:(done))
      as (st' & Hrun & Hfeeder & _ & Hops & _ & _ & Hfinal).
    exists st'. split; [exact Hrun|]. split; [exact Hfeeder|].
    split; [exact Hops | exact Hfinal].
Defined.

Lemma ex_backReferences_after_x :
  backReferencesConsistent (nodes (ex_run [ex_add 0 false])).
Proof.
  intros m n.
  destruct (run_insertions_sameLinks PyNone ex_classOf ex_reset ex_getValue
              ex_getGradient ex_makePredictions ex_toCommonDtype false
              ex_nodes true [mkInsertion 0 false false false] m) as [_ Hm].
  destruct (run_insertions_sameLinks PyNone ex_classOf ex_reset ex_getValue
              ex_getGradient ex_makePredictions ex_toCommonDtype false
              ex_nodes true [mkInsertion 0 false false false] n) as [Hn _].
  change (map insertionCall [mkInsertion 0 false false false])
    with [@ex_add 0 false] in Hm, Hn.
  unfold ex_run, ex_run_on. rewrite Hm, Hn.
  apply ex_backReferencesConsistent.
Qed.

Lemma addOperation_sinks_witness :
  let st := ex_run [ex_add 0 false] in
  let st' := (ex_addOperation 1 false false false st).2 in
  endOperations (graph st) = [0]
  ∧ endOperations (graph st') = [1]
  ∧ ∀ r, r ∈ endOperations (graph st')
         ↔ (r ∈ endOperations (graph st) ∨ r = 1)
           ∧ r ∉ inputs (nodes st 1).
Proof.
  intros st st'. split; [vm_compute; reflexivity|].
  split; [vm_compute; reflexivity|].
  exact (addOperation_sinks ex_classOf false 1 false false false st
           ex_backReferences_after_x).
Defined.


Lemma unroll_after_attach_witness :
  let st := ex_run [ex_add 0 true] in
  let params := [PyNum 7; PyNum 8; PyNum 9] in
  ∃ st',
    ex_attachParameters params st = (Returns tt, st')
    ∧ ex_unrollGradientParameters st' = (Returns [PyNum 7; PyNum 8], st').
Proof.
  intros st params.
  apply (unroll_after_attach PyNone ex_classOf ex_getValue ex_toCommonDtype
           params st).
  - change (NoDup [0]). repeat constructor. by intros ?%elem_of_nil.
  - exact ex_target_x_shape.
  - vm_compute. lia.
  - intros acc new x Hx. unfold params in Hx.
    rewrite !elem_of_cons, elem_of_nil in Hx.
    destruct Hx as [-> | [-> | [-> | []]]]; unfold ex_toCommonDtype;
      by destruct (existsb _ (acc ++ new)).
Defined.

Lemma unrolled_parameters_length_witness :
  let st := ex_run [ex_add 0 true] in
  ∃ params,
    ex_unrollGradientParameters st = (Returns params, st)
    ∧ length params = targetElementCount st.
Proof.
  intros st.
  exact (unrolled_parameters_length PyNone ex_classOf ex_getValue
           ex_toCommonDtype st ex_target_x).
Defined.

Lemma feedBackward_triples_witness :
  let st := ex_run [ex_add 3 false; ex_add 0 true] in
  let r := feedBackward ex_getGradient st in
  r.1 = Returns [(Some 1, "x"%string, Some ex_x)]
  ∧ map (λ r, referenceNumber (nodes st r)) (gradientOps (graph st))
    = [Some 1].
Proof.
  intros st r.
  assert (Hout : r.1 = Returns [(Some 1, "x"%string, Some ex_x)])
    by (vm_compute; reflexivity).
  split; [exact Hout|].
  assert (Hrun : feedBackward ex_getGradient st
                 = (Returns [(Some 1, "x"%string, Some ex_x)], r.2)).
  { rewrite <- Hout. apply surjective_pairing. }
  symmetry.
  exact (feedBackward_triples ex_getGradient st _ r.2
           ex_getGradient_sameIdentifiers Hrun).
Defined.

Lemma ex_reset_sameModeFlags r :
  nodeMethodWithin sameModeFlags (ex_reset r).
Proof.
  intros s r'. cbn. unfold insert, fn_insert. by case_decide; subst.
Qed.

Lemma makePredictions_predicts_in_evaluation_mode_witness :
  let st := ex_run [ex_add 0 false; CallAddOperation 2 false true false] in
  let r := ex_graph_makePredictions st in
  r.1 = Returns (Some ex_x)
  ∧ ∃ final s s1,
      finalOperation (graph st) = Some final
      ∧ ex_classOf final = KCostOperation
      ∧ ex_makePredictions final s = (inr (Some ex_x), s1)
      ∧ (∀ x, x ∈ operations (graph st) →
              testing (s x) = true ∧ cacheCleared ex_classOf x (s x))
      ∧ (∀ x, x ∉ operations (graph st) → nodes r.2 x = s1 x).
Proof.
  intros st r.
  assert (Hout : r.1 = Returns (Some ex_x)) by (vm_compute; reflexivity).
  split; [exact Hout|].
  assert (Hrun : ex_graph_makePredictions st = (Returns (Some ex_x), r.2)).
  { rewrite <- Hout. apply surjective_pairing. }
  exact (makePredictions_predicts_in_evaluation_mode ex_classOf ex_reset
           ex_makePredictions st (Some ex_x) r.2 ex_reset_sameModeFlags
           ex_reset_clears Hrun).
Defined.
